(** * A batch URL health checker: model and properties

    Shallow embedding of [project/main.go]: the input loader ([readURLs] and
    the scheme-prefixing loop of [main]), the checker ([checkURL]), the manual
    scan of the [--json] option, the worker pool of [main] as a transition
    system over two buffered channels and a wait group, and the reporter
    ([sort.Slice] on the URL, [printTable]).

    Go strings are byte sequences: they are modelled by [string] (a list of
    8-bit characters), so that [==], [<] and prefix tests are bytewise as in
    Go.  Go's [int] and [int64] values are modelled by [Z]; none of the
    arithmetic of the program can overflow (a status code, a length, a loop
    counter bounded by the worker count). *)

From Stdlib Require Import ZArith Lia Ascii.
From Stdlib Require Import DecimalString DecimalPos DecimalZ.
From stdpp Require Import base tactics option list strings sorting.

#[local] Set Warnings "-clear-no-such-hyp".

Local Open Scope Z_scope.

(** * Part I: the program *)

(** ** Library functions of package [strings] *)

Module Strings.

(** [strings.HasPrefix(s, prefix)] *)
Fixpoint HasPrefix (s prefix : string) {struct prefix} : bool :=
  match prefix, s with
  | EmptyString, _ => true
  | String c p', String d s' => if Ascii.eqb c d then HasPrefix s' p' else false
  | String _ _, EmptyString => false
  end.

(** [s[n:]] *)
Fixpoint drop (n : nat) (s : string) : string :=
  match n, s with
  | O, _ => s
  | S n', String _ s' => drop n' s'
  | S _, EmptyString => EmptyString
  end.

(** [strings.TrimPrefix(s, prefix)] *)
Definition TrimPrefix (s prefix : string) : string :=
  if HasPrefix s prefix then drop (String.length prefix) s else s.

(** [strings.Contains(s, substr)]: [substr] occurs at some offset of [s]. *)
Fixpoint Contains (s substr : string) : bool :=
  HasPrefix s substr ||
  match s with
  | EmptyString => false
  | String _ s' => Contains s' substr
  end.

(** [strings.Repeat(s, count)] *)
Fixpoint Repeat (s : string) (count : nat) : string :=
  match count with
  | O => EmptyString
  | S n => s +:+ Repeat s n
  end.

(** [strings.TrimSpace(s)]: [s] without its leading and trailing white space,
    as defined by Unicode.  A Go string holds UTF-8: the white space
    characters are the six ASCII ones ([asciiSpace] in the library) and
    U+0085, U+00A0, U+1680, U+2000 to U+200A, U+2028, U+2029, U+202F, U+205F
    and U+3000, which take two or three bytes.  A byte that starts no valid
    encoding of one of them is not white space and stops the scan. *)

Definition asciiSpace (c : ascii) : bool :=
  match c with
  | "009" | "010" | "011" | "012" | "013" | " " => true
  | _ => false
  end%char.

(** The two-byte encodings: U+0085 is C2 85 and U+00A0 is C2 A0. *)
Definition space2 (c1 c2 : ascii) : bool :=
  let b1 := N_of_ascii c1 in
  let b2 := N_of_ascii c2 in
  ((b1 =? 194) && ((b2 =? 133) || (b2 =? 160)))%N.

(** The three-byte encodings: E1 9A 80; E2 80 80 to E2 80 8A, E2 80 A8,
    E2 80 A9, E2 80 AF; E2 81 9F; E3 80 80. *)
Definition space3 (c1 c2 c3 : ascii) : bool :=
  let b1 := N_of_ascii c1 in
  let b2 := N_of_ascii c2 in
  let b3 := N_of_ascii c3 in
  (((b1 =? 225) && (b2 =? 154) && (b3 =? 128))
   || ((b1 =? 226) && (b2 =? 128)
       && (((128 <=? b3) && (b3 <=? 138)) || (b3 =? 168) || (b3 =? 169) || (b3 =? 175)))
   || ((b1 =? 226) && (b2 =? 129) && (b3 =? 159))
   || ((b1 =? 227) && (b2 =? 128) && (b3 =? 128)))%N.

(** The bytes after a leading white space character, if there is one. *)
Definition leadingSpace (l : list ascii) : option (list ascii) :=
  match l with
  | c1 :: l1 =>
      if asciiSpace c1 then Some l1
      else match l1 with
           | c2 :: l2 =>
               if space2 c1 c2 then Some l2
               else match l2 with
                    | c3 :: l3 => if space3 c1 c2 c3 then Some l3 else None
                    | [] => None
                    end
           | [] => None
           end
  | [] => None
  end.

(** The same from the end, on the reversed bytes: the last byte comes first. *)
Definition trailingSpace (r : list ascii) : option (list ascii) :=
  match r with
  | c1 :: r1 =>
      if asciiSpace c1 then Some r1
      else match r1 with
           | c2 :: r2 =>
               if space2 c2 c1 then Some r2
               else match r2 with
                    | c3 :: r3 => if space3 c3 c2 c1 then Some r3 else None
                    | [] => None
                    end
           | [] => None
           end
  | [] => None
  end.

(** The scanning loops of [TrimLeftFunc] and [TrimRightFunc]: at most one
    round per byte. *)
Fixpoint trimLoop (next : list ascii → option (list ascii)) (fuel : nat)
    (l : list ascii) : list ascii :=
  match fuel with
  | O => l
  | S n =>
      match next l with
      | Some l' => trimLoop next n l'
      | None => l
      end
  end.

Definition trimLeft (l : list ascii) : list ascii :=
  trimLoop leadingSpace (length l) l.

Definition trimRight (l : list ascii) : list ascii :=
  rev (trimLoop trailingSpace (length l) (rev l)).

Definition TrimSpace (s : string) : string :=
  String.string_of_list_ascii
    (trimRight (trimLeft (String.list_ascii_of_string s))).

(** The bytes of one white space character, and runs of such characters. *)
Definition isSpaceRune (r : list ascii) : bool :=
  match r with
  | [c] => asciiSpace c
  | [c1; c2] => space2 c1 c2
  | [c1; c2; c3] => space3 c1 c2 c3
  | _ => false
  end.

Inductive whiteSpace : list ascii → Prop :=
  | ws_nil : whiteSpace []
  | ws_cons r l : isSpaceRune r = true → whiteSpace l → whiteSpace (r ++ l).

End Strings.

(** ** The result record

    [Contains *bool] is a nullable pointer: [None] is [nil]. *)

Record Result := mkResult {
  URL : string;
  StatusCode : Z;
  OK : bool;
  TTFBMs : Z;
  SizeBytes : Z;
  Contains : option bool;
  Error : string;
}.

(** ** What the network answers

    [client.Get] and [io.ReadAll] are the two calls of [checkURL] that leave
    the program.  A response says what each of them returns: an error (its
    [Error()] text), or the header (status code, and the milliseconds that
    [time.Since(start)] measures once it has arrived) and then the body or the
    error of reading it. *)

Inductive BodyRead :=
  | BodyBytes (body : string)
  | BodyFailed (err : string).

Inductive Response :=
  | GetFailed (err : string)
  | GetHeader (status : Z) (elapsedMs : Z) (body : BodyRead).

(** ** [checkURL]

    Each assignment to a field of [res] is a new record; the two early
    [return res] are the two failure branches. *)

Definition checkURL (url : string) (resp : Response) (contains : string) : Result :=
  let res := mkResult url 0 false 0 0 None EmptyString in
  match resp with
  | GetFailed err =>
      mkResult (URL res) (StatusCode res) (OK res) (TTFBMs res) (SizeBytes res)
               (Contains res) err
  | GetHeader status elapsedMs rd =>
      let res := mkResult (URL res) status
                          ((200 <=? status) && (status <? 300))
                          elapsedMs (SizeBytes res) (Contains res) (Error res) in
      match rd with
      | BodyFailed err =>
          mkResult (URL res) (StatusCode res) (OK res) (TTFBMs res) (SizeBytes res)
                   (Contains res) err
      | BodyBytes body =>
          let res := mkResult (URL res) (StatusCode res) (OK res) (TTFBMs res)
                              (Z.of_nat (String.length body)) (Contains res) (Error res) in
          if negb (String.eqb contains EmptyString) then
            let found := Strings.Contains body contains in
            mkResult (URL res) (StatusCode res) (OK res) (TTFBMs res) (SizeBytes res)
                     (Some found) (Error res)
          else res
      end
  end.

(** The responses with which the invariants of the record are stated: an error
    has a text, and a status line never carries the code 0. *)
Definition response_ok (resp : Response) : Prop :=
  match resp with
  | GetFailed err => err ≠ EmptyString
  | GetHeader status _ (BodyBytes _) => status ≠ 0
  | GetHeader status _ (BodyFailed err) => status ≠ 0 ∧ err ≠ EmptyString
  end.

Definition transport_failed (resp : Response) : Prop :=
  match resp with GetFailed _ => True | GetHeader _ _ _ => False end.

Definition body_failed (resp : Response) : Prop :=
  match resp with GetHeader _ _ (BodyFailed _) => True | _ => False end.

Definition body_of (resp : Response) : option string :=
  match resp with GetHeader _ _ (BodyBytes b) => Some b | _ => None end.

(** ** The worker pool of [main]

    The goroutines of [main] are the main goroutine, the workers it starts and
    the goroutine that waits for the group and closes [resultChan].  Each of
    them is a small program counter; a step of the system is one goroutine
    doing its next channel or wait-group operation, or its call of [checkURL].
    A goroutine whose operation is blocked has no step.

    A channel is its buffer and its closed flag.  A send appends to the buffer
    when there is room, blocks when there is none and panics on a closed
    channel; a [range] loop takes the oldest element, blocks on an empty open
    channel and ends on an empty closed one; closing a closed channel panics.
    [main] makes both channels with capacity [len(urls)], which is at least 1
    when the pool runs: the channels are buffered. *)

Inductive MainPc :=
  | MSpawn (i : Z)                (* [for i := 0; i < *workers; i++] *)
  | MFill (rest : list string)    (* [for _, u := range urls { urlChan <- u }] *)
  | MClose                        (* [close(urlChan)] *)
  | MGoCloser                     (* [go func() { wg.Wait(); close(resultChan) }()] *)
  | MDrain                        (* [for res := range resultChan] *)
  | MDone.                        (* past the loop: sort and report *)

Inductive Worker :=
  | WIdle                         (* at [for url := range urlChan] *)
  | WBusy (url : string)          (* calling [checkURL(url, client, *contains)] *)
  | WSend (res : Result)          (* at [resultChan <- res] *)
  | WExit.                        (* left the loop, [wg.Done()] has run *)

Inductive Closer :=
  | CNone                         (* not started *)
  | CWait                         (* at [wg.Wait()] *)
  | CClosing                      (* at [close(resultChan)] *)
  | CDone.

Record State := mkState {
  mainPc : MainPc;
  results : list Result;          (* the slice [results] of [main] *)
  urlBuf : list string;           (* buffer of [urlChan], oldest first *)
  urlClosed : bool;
  resBuf : list Result;           (* buffer of [resultChan], oldest first *)
  resClosed : bool;
  wg : Z;                         (* counter of the [sync.WaitGroup] *)
  workers : list Worker;
  closer : Closer;
  requested : list string;        (* the calls of [client.Get] so far *)
}.

Inductive Action :=
  | AMain
  | AWorker (i : nat) (resp : Response)
  | ACloser.

(** What an operation does in a state. *)
Inductive StepResult :=
  | Blocked                       (* the goroutine cannot move now *)
  | Panics                        (* the operation panics *)
  | Steps (s : State).

Definition set_mainPc (pc : MainPc) (s : State) : State :=
  mkState pc (results s) (urlBuf s) (urlClosed s) (resBuf s) (resClosed s)
          (wg s) (workers s) (closer s) (requested s).

Definition set_closer (c : Closer) (s : State) : State :=
  mkState (mainPc s) (results s) (urlBuf s) (urlClosed s) (resBuf s) (resClosed s)
          (wg s) (workers s) c (requested s).

Section Pool.

(** [net url resp]: the network may answer [resp] to a request for [url]. *)
Variable net : string → Response → bool.
(** The value of the flag [-workers], of [-contains], and the target list. *)
Variable nworkers : Z.
Variable contains : string.
Variable urls : list string.

(** Both channels are made with capacity [len(urls)]. *)
Definition chanCap : nat := length urls.

Definition init : State :=
  mkState (MSpawn 0) [] [] false [] false 0 [] CNone [].

Definition execMain (s : State) : StepResult :=
  match mainPc s with
  | MSpawn i =>
      if i <? nworkers then
        (* [wg.Add(1); go func() {...}()]: one step, the new goroutine and
           the counter are seen by no other goroutine in between *)
        Steps (mkState (MSpawn (i + 1)) (results s) (urlBuf s) (urlClosed s)
                       (resBuf s) (resClosed s) (wg s + 1)
                       (workers s ++ [WIdle]) (closer s) (requested s))
      else Steps (set_mainPc (MFill urls) s)
  | MFill [] => Steps (set_mainPc MClose s)
  | MFill (u :: rest) =>
      if urlClosed s then Panics
      else if (length (urlBuf s) <? chanCap)%nat then
        Steps (mkState (MFill rest) (results s) (urlBuf s ++ [u]) (urlClosed s)
                       (resBuf s) (resClosed s) (wg s) (workers s) (closer s)
                       (requested s))
      else Blocked
  | MClose =>
      if urlClosed s then Panics
      else Steps (mkState MGoCloser (results s) (urlBuf s) true
                          (resBuf s) (resClosed s) (wg s) (workers s) (closer s)
                          (requested s))
  | MGoCloser => Steps (set_closer CWait (set_mainPc MDrain s))
  | MDrain =>
      match resBuf s with
      | res :: rb =>
          Steps (mkState MDrain (results s ++ [res]) (urlBuf s) (urlClosed s)
                         rb (resClosed s) (wg s) (workers s) (closer s)
                         (requested s))
      | [] => if resClosed s then Steps (set_mainPc MDone s) else Blocked
      end
  | MDone => Blocked
  end.

Definition execWorker (i : nat) (resp : Response) (s : State) : StepResult :=
  match workers s !! i with
  | Some WIdle =>
      match urlBuf s with
      | u :: ub =>
          Steps (mkState (mainPc s) (results s) ub (urlClosed s)
                         (resBuf s) (resClosed s) (wg s)
                         (<[i:=WBusy u]> (workers s)) (closer s) (requested s))
      | [] =>
          if urlClosed s then
            (* the loop ends; the deferred [wg.Done()] runs *)
            if wg s - 1 <? 0 then Panics
            else Steps (mkState (mainPc s) (results s) (urlBuf s) (urlClosed s)
                                (resBuf s) (resClosed s) (wg s - 1)
                                (<[i:=WExit]> (workers s)) (closer s) (requested s))
          else Blocked
      end
  | Some (WBusy u) =>
      if net u resp then
        Steps (mkState (mainPc s) (results s) (urlBuf s) (urlClosed s)
                       (resBuf s) (resClosed s) (wg s)
                       (<[i:=WSend (checkURL u resp contains)]> (workers s))
                       (closer s) (requested s ++ [u]))
      else Blocked
  | Some (WSend res) =>
      if resClosed s then Panics
      else if (length (resBuf s) <? chanCap)%nat then
        Steps (mkState (mainPc s) (results s) (urlBuf s) (urlClosed s)
                       (resBuf s ++ [res]) (resClosed s) (wg s)
                       (<[i:=WIdle]> (workers s)) (closer s) (requested s))
      else Blocked
  | Some WExit | None => Blocked
  end.

Definition execCloser (s : State) : StepResult :=
  match closer s with
  | CWait => if wg s =? 0 then Steps (set_closer CClosing s) else Blocked
  | CClosing =>
      if resClosed s then Panics
      else Steps (mkState (mainPc s) (results s) (urlBuf s) (urlClosed s)
                          (resBuf s) true (wg s) (workers s) CDone (requested s))
  | CNone | CDone => Blocked
  end.

Definition exec (a : Action) (s : State) : StepResult :=
  match a with
  | AMain => execMain s
  | AWorker i resp => execWorker i resp s
  | ACloser => execCloser s
  end.

Definition step (s s' : State) : Prop := ∃ a, exec a s = Steps s'.

(** The states of the runs: those reached from [init] by steps. *)
Inductive reachable : State → Prop :=
  | reach_init : reachable init
  | reach_step s s' : reachable s → step s s' → reachable s'.

(** A schedule is a list of actions; [run] plays it, and stops with [None] if
    one of them is blocked or panics. *)
Fixpoint run (sched : list Action) (s : State) : option State :=
  match sched with
  | [] => Some s
  | a :: sched' =>
      match exec a s with
      | Steps s' => run sched' s'
      | _ => None
      end
  end.

(** *** Accounting of the targets and the termination measure *)

Definition restOf (pc : MainPc) : list string :=
  match pc with
  | MSpawn _ => urls
  | MFill rest => rest
  | _ => []
  end.

Definition workerURL (w : Worker) : list string :=
  match w with
  | WBusy u => [u]
  | WSend res => [URL res]
  | WIdle | WExit => []
  end.

Definition workerDone (w : Worker) : list string :=
  match w with
  | WSend res => [URL res]
  | _ => []
  end.

(** Where the targets are: not yet sent, in [urlChan], with a worker, in
    [resultChan], or collected. *)
Definition inflight (s : State) : list string :=
  restOf (mainPc s) ++ urlBuf s ++ concat (workerURL <$> workers s)
    ++ (URL <$> resBuf s) ++ (URL <$> results s).

Definition isOutcome (res : Result) : Prop :=
  ∃ resp, net (URL res) resp = true ∧ res = checkURL (URL res) resp contains.

Definition workerOutcome (w : Worker) : Prop :=
  match w with WSend res => isOutcome res | _ => True end.

Definition live (w : Worker) : bool :=
  match w with WExit => false | _ => true end.

Definition liveCount (ws : list Worker) : nat := length (filter (λ w, live w = true) ws).

(** How many workers [main] has started. *)
Definition spawnedAt (pc : MainPc) : Z :=
  match pc with MSpawn i => i | _ => Z.max 0 nworkers end.

Definition pastClose (pc : MainPc) : bool :=
  match pc with MGoCloser | MDrain | MDone => true | _ => false end.

Definition pastGo (pc : MainPc) : bool :=
  match pc with MDrain | MDone => true | _ => false end.

Record Inv (s : State) : Prop := mkInv {
  inv_perm : inflight s ≡ₚ urls;
  inv_outcomes : Forall isOutcome (resBuf s ++ results s);
  inv_workers : Forall workerOutcome (workers s);
  inv_requested :
    requested s ≡ₚ concat (workerDone <$> workers s)
                     ++ (URL <$> resBuf s) ++ (URL <$> results s);
  inv_wg : wg s = Z.of_nat (liveCount (workers s));
  inv_spawned : length (workers s) = Z.to_nat (spawnedAt (mainPc s));
  inv_counter : 0 ≤ spawnedAt (mainPc s) ≤ Z.max 0 nworkers;
  inv_urlClosed : urlClosed s = pastClose (mainPc s);
  inv_closer : (closer s = CNone) ↔ pastGo (mainPc s) = false;
  inv_resClosed : resClosed s = true ↔ closer s = CDone;
  inv_closing : closer s = CClosing ∨ closer s = CDone → liveCount (workers s) = 0%nat;
  inv_exit : WExit ∈ workers s → urlClosed s = true ∧ urlBuf s = [];
  inv_idle : workers s = [] → resBuf s = [] ∧ results s = [] ∧ requested s = [];
  inv_done : mainPc s = MDone → resBuf s = [] ∧ resClosed s = true;
}.

Definition mainRank (pc : MainPc) : nat :=
  match pc with
  | MSpawn i => 7 + 2 * Z.to_nat (nworkers - i)
  | MFill _ => 6
  | MClose => 5
  | MGoCloser => 4
  | MDrain => 1
  | MDone => 0
  end.

Definition workerRank (w : Worker) : nat :=
  match w with
  | WIdle => 1
  | WBusy _ => 4
  | WSend _ => 3
  | WExit => 0
  end.

Definition closerRank (c : Closer) : nat :=
  match c with
  | CNone | CWait => 2
  | CClosing => 1
  | CDone => 0
  end.

Definition measure (s : State) : nat :=
  (mainRank (mainPc s) + 5 * length (restOf (mainPc s)) + 4 * length (urlBuf s)
   + sum_list_with workerRank (workers s) + length (resBuf s)
   + closerRank (closer s))%nat.

End Pool.

(** ** The input loader *)

(** What the file system answers to [os.Open] and to the scanner: the open
    fails, or the scanner yields the lines of the file (without their line
    ends) and stops at the end of the file or on an error. *)
Inductive FileSource :=
  | OpenFails (err : string)
  | Opened (lines : list string) (scanErr : option string).

(** [readURLs]: the pair it returns, [None] for a [nil] error. *)
Definition readURLs (src : FileSource) : list string * option string :=
  match src with
  | OpenFails err => ([], Some err)
  | Opened lines scanErr =>
      let urls :=
        foldl (λ urls line,
                 let url := Strings.TrimSpace line in
                 if negb (String.eqb url EmptyString) then urls ++ [url] else urls)
              [] lines in
      (urls, scanErr)
  end.

(** The loop [for i, u := range urls] of [main] that writes [urls[i]]. *)
Definition addSchemes (urls : list string) : list string :=
  foldl (λ cur i,
           match cur !! i with
           | Some u =>
               if negb (Strings.HasPrefix u "http://")
                  && negb (Strings.HasPrefix u "https://")
               then <[i:="https://" +:+ u]> cur
               else cur
           | None => cur
           end)
        urls (seq 0 (length urls)).

(** What the loop does to one target. *)
Definition withScheme (u : string) : string :=
  if negb (Strings.HasPrefix u "http://") && negb (Strings.HasPrefix u "https://")
  then "https://" +:+ u
  else u.

(** ** The scan of the arguments for [--json] *)

Record ArgScan := mkArgScan {
  jsonOutput : string;
  newArgs : list string;
  skip : bool;
}.

(** The body of [for i, arg := range args]. *)
Definition scanArg (args : list string) (st : ArgScan) (i : nat) (arg : string)
    : ArgScan :=
  if skip st then mkArgScan (jsonOutput st) (newArgs st) false
  else if String.eqb arg "--json" then
    match args !! (i + 1)%nat with
    | Some next =>
        if negb (Strings.HasPrefix next "-")
        then mkArgScan next (newArgs st) true
        else mkArgScan "results.json" (newArgs st) (skip st)
    | None => mkArgScan "results.json" (newArgs st) (skip st)
    end
  else if Strings.HasPrefix arg "--json=" then
    mkArgScan (Strings.TrimPrefix arg "--json=") (newArgs st) (skip st)
  else mkArgScan (jsonOutput st) (newArgs st ++ [arg]) (skip st).

Definition scanFrom (args : list string) (st : ArgScan) (i : nat)
    (rest : list string) : ArgScan :=
  foldl (λ st ia, scanArg args st ia.1 ia.2) st (zip (seq i (length rest)) rest).

(** The whole loop over [args = os.Args[1:]]. *)
Definition scanArgs (args : list string) : ArgScan :=
  scanFrom args (mkArgScan EmptyString [] false) 0 args.

(** The option as the specification words it, by cases on the arguments that
    are left: [json] is the path chosen so far. *)
Fixpoint jsonOptionSpec (json : string) (args : list string) : string * list string :=
  match args with
  | [] => (json, [])
  | arg :: rest =>
      if String.eqb arg "--json" then
        match rest with
        | next :: rest' =>
            if Strings.HasPrefix next "-"
            then jsonOptionSpec "results.json" rest
            else jsonOptionSpec next rest'
        | [] => ("results.json", [])
        end
      else if Strings.HasPrefix arg "--json=" then
        jsonOptionSpec (Strings.TrimPrefix arg "--json=") rest
      else
        let r := jsonOptionSpec json rest in (r.1, arg :: r.2)
  end.

(** An argument that the scan passes on. *)
Definition passedOn (arg : string) : Prop :=
  arg ≠ "--json" ∧ Strings.HasPrefix arg "--json=" = false.

(** ** The reporter *)

(** The comparison given to [sort.Slice]: [results[i].URL < results[j].URL]. *)
Definition less (a b : Result) : bool := String.ltb (URL a) (URL b).

(** [b] may stand after [a] in a sorted slice: [b] is not less than [a]. *)
Definition notAfter (a b : Result) : Prop := less b a = false.

Definition sortedByURL (l : list Result) : Prop := Sorted notAfter l.

(** What [sort.Slice] promises for a slice and this [less]: the elements are
    rearranged, and none is less than the one before it.  The sort is not
    stable, so nothing is promised about records with the same URL. *)
Definition sortsSlice (sortSlice : list Result → list Result) : Prop :=
  ∀ l, sortSlice l ≡ₚ l ∧ sortedByURL (sortSlice l).

(** A record without its latency, and two answers of the network that differ
    at most in the time they took. *)
Definition withoutLatency (r : Result) : Result :=
  mkResult (URL r) (StatusCode r) (OK r) 0 (SizeBytes r) (Contains r) (Error r).

Definition sameAnswer (r1 r2 : Response) : Prop :=
  match r1, r2 with
  | GetFailed e1, GetFailed e2 => e1 = e2
  | GetHeader st1 _ b1, GetHeader st2 _ b2 => st1 = st2 ∧ b1 = b2
  | _, _ => False
  end.

Definition tab : string := String "009" EmptyString.
Definition newline : string := String "010" EmptyString.

(** [fmt.Sprintf("%d", n)] and [fmt.Sprintf("%t", b)] *)
Definition fmtInt (n : Z) : string := NilZero.string_of_int (Z.to_int n).
Definition fmtBool (b : bool) : string := if b then "true" else "false".

Definition statusCell (r : Result) : string :=
  if StatusCode r =? 0 then "-" else fmtInt (StatusCode r).

Definition okCell (r : Result) : string :=
  if negb (String.eqb (Error r) EmptyString) then "false" else fmtBool (OK r).

Definition containsCell (r : Result) : string :=
  match Contains r with
  | Some b => fmtBool b
  | None => "-"
  end.

(** One row, as it is written to the tab writer. *)
Definition tableRow (r : Result) : string :=
  URL r +:+ tab +:+ statusCell r +:+ tab +:+ okCell r +:+ tab +:+
  fmtInt (TTFBMs r) +:+ tab +:+ fmtInt (SizeBytes r) +:+ tab +:+
  containsCell r +:+ tab +:+ Error r +:+ newline.

Definition tableHeader : list string :=
  [ "URL" +:+ tab +:+ "Статус" +:+ tab +:+ "OK" +:+ tab +:+ "TTFB(ms)" +:+ tab +:+
    "Байты" +:+ tab +:+ "Содержит" +:+ tab +:+ "Ошибка" +:+ newline;
    Strings.Repeat "-" 80 +:+ newline ].

(** [printTable]: the lines written; [showContains] is not used by the body. *)
Definition printTable (results : list Result) (showContains : bool) : list string :=
  tableHeader ++ (tableRow <$> results).

(** ** [main] *)

(** The flags after [flag.Parse] and the path found by the scan. *)
Record Config := mkConfig {
  cfgWorkers : Z;
  cfgContains : string;
  cfgJSON : string;
}.

(** What a run of the program has done when it ends: its exit status, what
    [main] wrote to the error stream, the lines of [printTable], the requests
    made, and the records handed to [saveJSON] with their path.  What
    [saveJSON] itself writes (the file, its message) is not part of it. *)
Record Report := mkReport {
  exitCode : Z;
  stderr : string;
  tableLines : list string;
  gets : list string;
  jsonSaved : option (string * list Result);
}.

Definition readErrorText (err : string) : string :=
  "Ошибка чтения файла: " +:+ err +:+ newline.

Definition emptyInputText : string := "Файл не содержит URL" +:+ newline.

Section Main.

Variable sortSlice : list Result → list Result.
Variable net : string → Response → bool.
Variable cfg : Config.
Variable src : FileSource.

(** The runs of [main] from the call of [readURLs] on, that is once
    [flag.Parse] has returned.  The exits of [flag.Parse] itself (status 2 on
    a flag that does not parse, status 0 after the usage text for [-h]) come
    before and are no runs of this relation. *)
Inductive mainRuns : Report → Prop :=
  | main_read_error urls err :
      readURLs src = (urls, Some err) →
      mainRuns (mkReport 1 (readErrorText err) [] [] None)
  | main_empty_input :
      readURLs src = ([], None) →
      mainRuns (mkReport 1 emptyInputText [] [] None)
  | main_reports urls s :
      readURLs src = (urls, None) →
      urls ≠ [] →
      reachable net (cfgWorkers cfg) (cfgContains cfg) (addSchemes urls) s →
      mainPc s = MDone →
      let sorted := sortSlice (results s) in
      mainRuns (mkReport 0 EmptyString
                  (printTable sorted (negb (String.eqb (cfgContains cfg) EmptyString)))
                  (requested s)
                  (if negb (String.eqb (cfgJSON cfg) EmptyString)
                   then Some (cfgJSON cfg, sorted) else None)).

End Main.

(** ** Sample runs *)

(** A network in which every target answers 200 with its own name as body,
    five milliseconds after the request. *)
Definition sampleNet (u : string) (resp : Response) : bool :=
  match resp with
  | GetHeader status ms (BodyBytes body) =>
      (status =? 200) && (ms =? 5) && String.eqb body u
  | _ => false
  end.

Definition sampleAnswer (u : string) : Response := GetHeader 200 5 (BodyBytes u).

Definition sampleURLs : list string := ["https://b.example"; "https://a.example"].

(** Two workers: the second target is checked and collected first. *)
Definition scheduleTwo : list Action :=
  [ AMain; AMain; AMain; AMain;
    AWorker 0 (sampleAnswer "https://b.example");
    AMain;
    AWorker 1 (sampleAnswer "https://a.example");
    AWorker 1 (sampleAnswer "https://a.example");
    AWorker 1 (sampleAnswer "https://a.example");
    AMain; AMain; AMain; AMain;
    AWorker 0 (sampleAnswer "https://b.example");
    AWorker 0 (sampleAnswer "https://b.example");
    AWorker 0 (sampleAnswer "https://b.example");
    AWorker 1 (sampleAnswer "https://a.example");
    ACloser; ACloser; AMain; AMain ].

(** One worker: the targets are checked in the order of the list. *)
Definition scheduleOne : list Action :=
  [ AMain; AMain; AMain; AMain; AMain; AMain; AMain;
    AWorker 0 (sampleAnswer "https://b.example");
    AWorker 0 (sampleAnswer "https://b.example");
    AWorker 0 (sampleAnswer "https://b.example");
    AWorker 0 (sampleAnswer "https://a.example");
    AWorker 0 (sampleAnswer "https://a.example");
    AWorker 0 (sampleAnswer "https://a.example");
    AWorker 0 (sampleAnswer "https://a.example");
    ACloser; ACloser; AMain; AMain; AMain ].

(** No worker. *)
Definition scheduleNone : list Action :=
  [ AMain; AMain; AMain; AMain; AMain; AMain; ACloser; ACloser; AMain ].

Definition sampleResult (u : string) : Result :=
  mkResult u 200 true 5 (Z.of_nat (String.length u)) None EmptyString.

Definition finalState (rs : list Result) (ws : list Worker) (rq : list string)
    (ub : list string) : State :=
  mkState MDone rs ub true [] true 0 ws CDone rq.

(** Where the three schedules end. *)
Definition finalTwo : State :=
  finalState [sampleResult "https://a.example"; sampleResult "https://b.example"]
             [WExit; WExit] ["https://a.example"; "https://b.example"] [].

Definition finalOne : State :=
  finalState [sampleResult "https://b.example"; sampleResult "https://a.example"]
             [WExit] ["https://b.example"; "https://a.example"] [].

Definition finalNone : State := finalState [] [] [] sampleURLs.

(** Two records for one target, as two requests of a target that is listed
    twice may give. *)
Definition twiceUp : Result :=
  mkResult "https://a.example" 200 true 5 2 None EmptyString.
Definition twiceDown : Result :=
  mkResult "https://a.example" 503 false 9 0 None EmptyString.

(** A list that holds one target twice, and a network in which this target
    answers 200 at one moment and 503 at another. *)
Definition twiceURLs : list string := ["https://a.example"; "https://a.example"].

Definition answerUp : Response := GetHeader 200 5 (BodyBytes "ok").
Definition answerDown : Response := GetHeader 503 9 (BodyBytes EmptyString).

Definition twiceNet (u : string) (resp : Response) : bool :=
  match resp with
  | GetHeader status ms (BodyBytes body) =>
      ((status =? 200) && (ms =? 5) && String.eqb body "ok")
      || ((status =? 503) && (ms =? 9) && String.eqb body EmptyString)
  | _ => false
  end.

(** Two runs over it in which the request for the first entry of the list is
    answered 200 and the request for the second one 503.  With one worker the
    records are collected in this order. *)
Definition scheduleTwiceOne : list Action :=
  [ AMain; AMain; AMain; AMain; AMain; AMain; AMain;
    AWorker 0 answerUp; AWorker 0 answerUp; AWorker 0 answerUp;
    AWorker 0 answerDown; AWorker 0 answerDown; AWorker 0 answerDown;
    AWorker 0 answerDown;
    ACloser; ACloser; AMain; AMain; AMain ].

(** With two workers the second worker, which has the second entry, is the
    first to send its record. *)
Definition scheduleTwiceTwo : list Action :=
  [ AMain; AMain; AMain; AMain;
    AWorker 0 answerUp;
    AMain;
    AWorker 1 answerDown; AWorker 1 answerDown; AWorker 1 answerDown;
    AMain; AMain; AMain; AMain;
    AWorker 0 answerUp; AWorker 0 answerUp; AWorker 0 answerUp;
    AWorker 1 answerDown;
    ACloser; ACloser; AMain; AMain ].

Definition finalTwiceOne : State :=
  finalState [twiceUp; twiceDown] [WExit] twiceURLs [].

Definition finalTwiceTwo : State :=
  finalState [twiceDown; twiceUp] [WExit; WExit] twiceURLs [].

(** A sort with the promise of [sort.Slice], for the sample runs. *)
Definition notAfter_dec (a b : Result) : Decision (notAfter a b) :=
  bool_eq_dec (less b a) false.

Definition sampleSort (l : list Result) : list Result :=
  @merge_sort Result notAfter notAfter_dec l.

Definition sampleConfig : Config := mkConfig 2 EmptyString EmptyString.

(** A file of blank lines, and a file that cannot be opened. *)
Definition blankFile : FileSource := Opened ["   "; EmptyString; tab] None.
Definition missingFile : FileSource :=
  OpenFails "open urls.txt: no such file or directory".

(** A target with a scheme. *)
Definition hasScheme (t : string) : Prop :=
  Strings.HasPrefix t "http://" = true ∨ Strings.HasPrefix t "https://" = true.

(** A string that [readURLs] keeps as it is. *)
Definition trimmed (u : string) : Prop :=
  u ≠ EmptyString ∧ Strings.TrimSpace u = u.

(** ** Views of a pool state *)

Definition isBusy (w : Worker) : bool :=
  match w with WBusy _ => true | _ => false end.

(** The calls of [checkURL] that are under way. *)
Definition busyCount (ws : list Worker) : nat :=
  length (filter (λ w, isBusy w = true) ws).

(** The targets from the one that is furthest on its way to the one that is
    last to be sent: collected, in [resultChan], with a worker, in [urlChan],
    not yet sent. *)
Definition arrival (urls : list string) (s : State) : list string :=
  (URL <$> results s) ++ (URL <$> resBuf s) ++ concat (workerURL <$> workers s)
    ++ urlBuf s ++ restOf urls (mainPc s).

(** The targets requested, from the one that is furthest on its way. *)
Definition requestOrder (s : State) : list string :=
  (URL <$> results s) ++ (URL <$> resBuf s) ++ concat (workerDone <$> workers s).

(** States in the middle of the sample run with two workers: [main] about to
    send the first target, and later a worker about to send its record while
    the other is checking. *)
Definition midFill : State :=
  default init (run sampleNet 2 EmptyString sampleURLs (take 3 scheduleTwo) init).

Definition midSend : State :=
  default init (run sampleNet 2 EmptyString sampleURLs (take 8 scheduleTwo) init).

(** A file of three lines, one of them blank, and the report of the program
    for it with the schedule [scheduleTwo]. *)
Definition sampleFile : FileSource :=
  Opened [" b.example"; EmptyString; "a.example "] None.

Definition sampleReport : Report :=
  mkReport 0 EmptyString (printTable (sampleSort (results finalTwo)) false)
    (requested finalTwo) None.

(** * Part II: properties *)

(** ** Package [strings] *)

Lemma app_nil_l (t : string) : EmptyString +:+ t = t.
Proof. reflexivity. Qed.

Lemma app_cons c (s t : string) : String c s +:+ t = String c (s +:+ t).
Proof. reflexivity. Qed.

Lemma HasPrefix_spec s p : Strings.HasPrefix s p = true ↔ ∃ t, s = p +:+ t.
Proof.
  revert s; induction p as [|c p IH]; intros s; simpl.
  - split; [intros _; by exists s | reflexivity].
  - destruct s as [|d s].
    + split; [discriminate | intros [t Ht]; discriminate].
    + destruct (Ascii.eqb_spec c d) as [->|Hne].
      * rewrite IH. split; intros [t Ht]; exists t;
          rewrite app_cons in *; congruence.
      * split; [discriminate | intros [t Ht]; rewrite app_cons in Ht; congruence].
Qed.

Lemma HasPrefix_app p t : Strings.HasPrefix (p +:+ t) p = true.
Proof. apply HasPrefix_spec. by exists t. Qed.

Lemma drop_app p t : Strings.drop (String.length p) (p +:+ t) = t.
Proof. induction p; simpl; auto. Qed.

Lemma TrimPrefix_app p t : Strings.TrimPrefix (p +:+ t) p = t.
Proof. unfold Strings.TrimPrefix. by rewrite HasPrefix_app, drop_app. Qed.

Lemma Contains_spec s sub :
  Strings.Contains s sub = true ↔ ∃ pre post, s = pre +:+ sub +:+ post.
Proof.
  induction s as [|c s IH].
  - simpl. rewrite orb_false_r, HasPrefix_spec. split.
    + intros [t Ht]. by exists EmptyString, t.
    + intros (pre & post & H). destruct pre; [by exists post | discriminate].
  - cbn [Strings.Contains]. rewrite orb_true_iff, IH, HasPrefix_spec. split.
    + intros [[t Ht] | (pre & post & H)].
      * by exists EmptyString, t.
      * exists (String c pre), post. by rewrite app_cons, H.
    + intros (pre & post & H). destruct pre as [|d pre].
      * left. by exists post.
      * right. exists pre, post. rewrite app_cons in H. congruence.
Qed.

(** *** [TrimSpace] removes the white space at both ends *)

Lemma leadingSpace_rune l l' :
  Strings.leadingSpace l = Some l' →
  ∃ r, Strings.isSpaceRune r = true ∧ l = r ++ l'.
Proof.
  destruct l as [|c1 l1]; [done|]. cbn [Strings.leadingSpace].
  destruct (Strings.asciiSpace c1) eqn:H1.
  { intros [= <-]. by exists [c1]. }
  destruct l1 as [|c2 l2]; [done|].
  destruct (Strings.space2 c1 c2) eqn:H2.
  { intros [= <-]. by exists [c1; c2]. }
  destruct l2 as [|c3 l3]; [done|].
  destruct (Strings.space3 c1 c2 c3) eqn:H3; [|done].
  intros [= <-]. by exists [c1; c2; c3].
Qed.

Lemma leadingSpace_starts r rest :
  Strings.isSpaceRune r = true → Strings.leadingSpace (r ++ rest) ≠ None.
Proof.
  destruct r as [|c1 [|c2 [|c3 [|c4 r]]]]; try done; intros Hr;
    cbn [Strings.isSpaceRune] in Hr; cbn [app Strings.leadingSpace].
  - by rewrite Hr.
  - destruct (Strings.asciiSpace c1); [done|]. by rewrite Hr.
  - destruct (Strings.asciiSpace c1); [done|].
    destruct (Strings.space2 c1 c2); [done|]. by rewrite Hr.
Qed.

Lemma trailingSpace_ends r rest :
  Strings.isSpaceRune r = true → Strings.trailingSpace (rev (rest ++ r)) ≠ None.
Proof.
  rewrite rev_app_distr.
  destruct r as [|c1 [|c2 [|c3 [|c4 r]]]]; try done; intros Hr;
    cbn [Strings.isSpaceRune] in Hr; cbn [rev app Strings.trailingSpace].
  - by rewrite Hr.
  - destruct (Strings.asciiSpace c2); [done|]. by rewrite Hr.
  - destruct (Strings.asciiSpace c3); [done|].
    destruct (Strings.space2 c2 c3); [done|]. by rewrite Hr.
Qed.

Lemma trailingSpace_rune m m' :
  Strings.trailingSpace m = Some m' →
  ∃ r, Strings.isSpaceRune r = true ∧ m = rev r ++ m'.
Proof.
  destruct m as [|c1 m1]; [done|]. cbn [Strings.trailingSpace].
  destruct (Strings.asciiSpace c1) eqn:H1.
  { intros [= <-]. by exists [c1]. }
  destruct m1 as [|c2 m2]; [done|].
  destruct (Strings.space2 c2 c1) eqn:H2.
  { intros [= <-]. by exists [c2; c1]. }
  destruct m2 as [|c3 m3]; [done|].
  destruct (Strings.space3 c3 c2 c1) eqn:H3; [|done].
  intros [= <-]. by exists [c3; c2; c1].
Qed.

Lemma isSpaceRune_length r : Strings.isSpaceRune r = true → (0 < length r)%nat.
Proof. destruct r; [done|]. simpl. lia. Qed.

Lemma whiteSpace_app l1 l2 :
  Strings.whiteSpace l1 → Strings.whiteSpace l2 → Strings.whiteSpace (l1 ++ l2).
Proof.
  induction 1 as [|r l Hr _ IH]; [done|]. intros H2.
  rewrite <- app_assoc. constructor; auto.
Qed.

Lemma whiteSpace_rune r : Strings.isSpaceRune r = true → Strings.whiteSpace r.
Proof.
  intros Hr. rewrite <- (app_nil_r r). constructor; [done | constructor].
Qed.

Lemma trimLoop_leading fuel l :
  ∃ pre, Strings.whiteSpace pre ∧
         l = pre ++ Strings.trimLoop Strings.leadingSpace fuel l.
Proof.
  revert l. induction fuel as [|n IH]; intros l; simpl.
  - exists []. split; [constructor | done].
  - destruct (Strings.leadingSpace l) as [l'|] eqn:Hl.
    + destruct (leadingSpace_rune _ _ Hl) as (r & Hr & ->).
      destruct (IH l') as (pre & Hpre & Hl').
      exists (r ++ pre). split; [by constructor|].
      rewrite <- app_assoc. by rewrite <- Hl'.
    + exists []. split; [constructor | done].
Qed.

Lemma trimLoop_trailing fuel m :
  ∃ post, Strings.whiteSpace post ∧
          m = rev post ++ Strings.trimLoop Strings.trailingSpace fuel m.
Proof.
  revert m. induction fuel as [|n IH]; intros m; simpl.
  - exists []. split; [constructor | done].
  - destruct (Strings.trailingSpace m) as [m'|] eqn:Hm.
    + destruct (trailingSpace_rune _ _ Hm) as (r & Hr & ->).
      destruct (IH m') as (post & Hpost & Hm').
      exists (post ++ r). split.
      * apply whiteSpace_app; [done | by apply whiteSpace_rune].
      * rewrite rev_app_distr, <- app_assoc. by rewrite <- Hm'.
    + exists []. split; [constructor | done].
Qed.

Lemma trimLoop_done next fuel l :
  (∀ x y, next x = Some y → (length y < length x)%nat) →
  (length l ≤ fuel)%nat →
  next (Strings.trimLoop next fuel l) = None.
Proof.
  intros Hnext. revert l. induction fuel as [|n IH]; intros l Hl; simpl.
  - destruct l; [|simpl in Hl; lia].
    destruct (next []) as [y|] eqn:Hy; [|done].
    apply Hnext in Hy. simpl in Hy. lia.
  - destruct (next l) as [l'|] eqn:Hl'; [|done].
    apply IH. apply Hnext in Hl'. lia.
Qed.

Lemma leadingSpace_shorter x y :
  Strings.leadingSpace x = Some y → (length y < length x)%nat.
Proof.
  intros (r & Hr%isSpaceRune_length & ->)%leadingSpace_rune.
  rewrite length_app. lia.
Qed.

Lemma trailingSpace_shorter x y :
  Strings.trailingSpace x = Some y → (length y < length x)%nat.
Proof.
  intros (r & Hr%isSpaceRune_length & ->)%trailingSpace_rune.
  rewrite length_app, length_rev. lia.
Qed.

Lemma leadingSpace_app t x post :
  Strings.leadingSpace t = Some x →
  Strings.leadingSpace (t ++ post) = Some (x ++ post).
Proof.
  destruct t as [|c1 l1]; [done|]. cbn [Strings.leadingSpace app].
  destruct (Strings.asciiSpace c1) eqn:H1.
  { by intros [= <-]. }
  destruct l1 as [|c2 l2]; [done|]. cbn [app].
  destruct (Strings.space2 c1 c2) eqn:H2.
  { by intros [= <-]. }
  destruct l2 as [|c3 l3]; [done|]. cbn [app].
  destruct (Strings.space3 c1 c2 c3) eqn:H3; [|done].
  by intros [= <-].
Qed.

Lemma TrimSpace_bytes s :
  String.list_ascii_of_string (Strings.TrimSpace s)
  = Strings.trimRight (Strings.trimLeft (String.list_ascii_of_string s)).
Proof.
  unfold Strings.TrimSpace. apply String.list_ascii_of_string_of_list_ascii.
Qed.

Lemma TrimSpace_spec s :
  let l := String.list_ascii_of_string s in
  let t := String.list_ascii_of_string (Strings.TrimSpace s) in
  ∃ pre post,
    l = pre ++ t ++ post ∧ Strings.whiteSpace pre ∧ Strings.whiteSpace post ∧
    Strings.leadingSpace t = None ∧ Strings.trailingSpace (rev t) = None.
Proof.
  intros l t. unfold t. rewrite TrimSpace_bytes. fold l. clear t.
  unfold Strings.trimLeft.
  destruct (trimLoop_leading (length l) l) as (pre & Hpre & Hl).
  pose proof (trimLoop_done Strings.leadingSpace (length l) l
                leadingSpace_shorter ltac:(lia)) as Hlead.
  set (t1 := Strings.trimLoop Strings.leadingSpace (length l) l) in *.
  unfold Strings.trimRight.
  destruct (trimLoop_trailing (length t1) (rev t1)) as (post & Hpost & Ht1).
  pose proof (trimLoop_done Strings.trailingSpace (length t1) (rev t1)
                trailingSpace_shorter) as Htrail.
  rewrite length_rev in Htrail. specialize (Htrail ltac:(lia)).
  set (m := Strings.trimLoop Strings.trailingSpace (length t1) (rev t1)) in *.
  assert (t1 = rev m ++ post) as Ht.
  { rewrite <- (rev_involutive t1), Ht1, rev_app_distr. by rewrite rev_involutive. }
  exists pre, post. split_and!; try done.
  - by rewrite <- Ht.
  - destruct (Strings.leadingSpace (rev m)) as [x|] eqn:Hx; [|done].
    apply (leadingSpace_app _ _ post) in Hx. rewrite <- Ht in Hx. congruence.
  - by rewrite rev_involutive.
Qed.

Example TrimSpace_ascii :
  Strings.TrimSpace (String "009" " example.com  " +:+ String "013" EmptyString)
  = "example.com".
Proof. reflexivity. Qed.

Example TrimSpace_blank : Strings.TrimSpace "   " = EmptyString.
Proof. reflexivity. Qed.

Example TrimSpace_inner : Strings.TrimSpace " a b " = "a b".
Proof. reflexivity. Qed.

(** U+00A0 before and U+3000 after the text. *)
Example TrimSpace_unicode :
  Strings.TrimSpace
    (String "194" (String "160" "x") +:+ String "227" (String "128" (String "128" "")))
  = "x".
Proof. reflexivity. Qed.

Lemma eqb_empty (s : string) : String.eqb s EmptyString = true ↔ s = EmptyString.
Proof. apply String.eqb_eq. Qed.

Lemma nonempty_eqb (s : string) :
  negb (String.eqb s EmptyString) = true ↔ s ≠ EmptyString.
Proof.
  rewrite negb_true_iff. destruct (String.eqb_spec s EmptyString); split; congruence.
Qed.

(** ** The checker *)

Lemma checkURL_URL url resp contains : URL (checkURL url resp contains) = url.
Proof.
  destruct resp as [err | status ms [body | err]]; simpl; try done.
  by destruct (negb _).
Qed.

Example checkURL_found :
  checkURL "https://example.com" (GetHeader 200 31 (BodyBytes "<h1>hello</h1>")) "hello"
  = mkResult "https://example.com" 200 true 31 14 (Some true) EmptyString.
Proof. reflexivity. Qed.

Example checkURL_not_found :
  checkURL "https://example.com" (GetHeader 404 7 (BodyBytes "nothing")) EmptyString
  = mkResult "https://example.com" 404 false 7 7 None EmptyString.
Proof. reflexivity. Qed.

Example checkURL_no_host :
  checkURL "https://nowhere.invalid" (GetFailed "no such host") "hello"
  = mkResult "https://nowhere.invalid" 0 false 0 0 None "no such host".
Proof. reflexivity. Qed.

(** C2, as the code has it: when errors have a text and a status line never
    carries the code 0, the status code of the record is 0 exactly when the
    request itself failed, and the error text is non-empty exactly when the
    request or the reading of the body failed.  So a zero status code implies
    an error text, and an error text implies a zero status code except when
    the body could not be read: then the status code of the header is kept. *)
Theorem checkURL_error_and_status url resp contains :
  response_ok resp →
  let r := checkURL url resp contains in
  (StatusCode r = 0 ↔ transport_failed resp) ∧
  (Error r ≠ EmptyString ↔ transport_failed resp ∨ body_failed resp) ∧
  (StatusCode r = 0 → Error r ≠ EmptyString) ∧
  (Error r ≠ EmptyString → StatusCode r = 0 ∨ body_failed resp).
Proof.
  destruct resp as [err | status ms [body | err]]; simpl; intros Hok.
  - tauto.
  - destruct (negb _); simpl; tauto.
  - tauto.
Qed.

Lemma checkURL_error_and_status_witness :
  let r := checkURL "https://example.com"
             (GetHeader 200 12 (BodyFailed "unexpected EOF")) EmptyString in
  (StatusCode r = 0 ↔ False) ∧
  (Error r ≠ EmptyString ↔ False ∨ True) ∧
  (StatusCode r = 0 → Error r ≠ EmptyString) ∧
  (Error r ≠ EmptyString → StatusCode r = 0 ∨ True).
Proof.
  apply (checkURL_error_and_status "https://example.com"
           (GetHeader 200 12 (BodyFailed "unexpected EOF")) EmptyString).
  simpl. split; [lia | discriminate].
Defined.

(** C2 as it is stated fails: a header with status 200 whose body cannot be
    read gives a record with an error text and a status code that is not 0. *)
Lemma checkURL_error_with_status :
  ∃ url resp contains,
    response_ok resp ∧
    Error (checkURL url resp contains) ≠ EmptyString ∧
    StatusCode (checkURL url resp contains) ≠ 0 ∧
    ¬ (Error (checkURL url resp contains) ≠ EmptyString
       ↔ StatusCode (checkURL url resp contains) = 0).
Proof.
  exists "https://example.com", (GetHeader 200 12 (BodyFailed "unexpected EOF")),
    EmptyString.
  simpl. split_and!; try done. intros [H _]. by specialize (H ltac:(done)).
Qed.

(** C3: the record of a target whose header says 200 and whose body cannot be
    read has [OK = true] together with an error text, although [printTable]
    shows [false] for it; on every other path a record with an error text has
    [OK = false], and [OK = true] means a status in [200,300). *)
Theorem checkURL_ok_with_error :
  (let r := checkURL "https://example.com"
              (GetHeader 200 12 (BodyFailed "unexpected EOF")) EmptyString in
   OK r = true ∧ Error r = "unexpected EOF" ∧ okCell r = "false") ∧
  (∀ url resp contains,
     let r := checkURL url resp contains in
     (OK r = true → 200 ≤ StatusCode r < 300) ∧
     (¬ body_failed resp → Error r ≠ EmptyString → OK r = false)).
Proof.
  split; [done|].
  intros url resp contains.
  destruct resp as [err | status ms [body | err]]; simpl.
  - done.
  - destruct (negb _); simpl; split; try done; lia.
  - split; [lia | tauto].
Qed.

(** C4: when the header arrives and reading the body fails, the record keeps
    the status code and the latency of the header, has the text of the failure
    as error, size 0 and no match flag; [OK] is what the status code says, so
    it is [true] for a status in [200,300). *)
Theorem checkURL_body_failure url status ms err contains :
  let r := checkURL url (GetHeader status ms (BodyFailed err)) contains in
  Error r = err ∧ SizeBytes r = 0 ∧ StatusCode r = status ∧ TTFBMs r = ms ∧
  Contains r = None ∧ OK r = ((200 <=? status) && (status <? 300)) ∧
  OK (checkURL url (GetHeader 200 ms (BodyFailed err)) contains) = true.
Proof. done. Qed.

(** C7: the match flag is present exactly when a substring is configured and
    the body was read; it is then [true] exactly when the substring occurs in
    the body; it is absent when the request failed, whatever the substring. *)
Theorem checkURL_contains url resp contains :
  let r := checkURL url resp contains in
  (is_Some (Contains r) ↔ contains ≠ EmptyString ∧ is_Some (body_of resp)) ∧
  (∀ b, Contains r = Some b →
     ∃ body, body_of resp = Some body ∧
       (b = true ↔ ∃ pre post, body = pre +:+ contains +:+ post)) ∧
  (transport_failed resp → Contains r = None) ∧
  (body_failed resp → Contains r = None).
Proof.
  destruct resp as [err | status ms [body | err]]; simpl.
  - split_and!; try done. rewrite <- not_eq_None_Some. naive_solver.
  - destruct (negb (String.eqb contains EmptyString)) eqn:Hc; simpl.
    + apply nonempty_eqb in Hc. split_and!; try done.
      intros b [= <-]. exists body. split; [done|]. apply Contains_spec.
    + apply negb_false_iff, eqb_empty in Hc. subst contains.
      split_and!; try done. rewrite <- not_eq_None_Some. naive_solver.
  - split_and!; try done. rewrite <- not_eq_None_Some. naive_solver.
Qed.

(** ** The input loader *)

Lemma readURLs_loop lines acc :
  foldl (λ urls line,
           let url := Strings.TrimSpace line in
           if negb (String.eqb url EmptyString) then urls ++ [url] else urls)
        acc lines
  = acc ++ filter (λ url, url ≠ EmptyString) (Strings.TrimSpace <$> lines).
Proof.
  revert acc. induction lines as [|line lines IH]; intros acc.
  - simpl. by rewrite app_nil_r.
  - cbn [foldl]. rewrite IH, fmap_cons, filter_cons.
    destruct (negb (String.eqb (Strings.TrimSpace line) EmptyString)) eqn:Hl.
    + apply nonempty_eqb in Hl. rewrite decide_True by done.
      by rewrite <- app_assoc.
    + apply negb_false_iff, eqb_empty in Hl. by rewrite decide_False by auto.
Qed.

Lemma withScheme_eq u :
  withScheme u
  = if negb (Strings.HasPrefix u "http://") && negb (Strings.HasPrefix u "https://")
    then "https://" +:+ u else u.
Proof. reflexivity. Qed.

Lemma addSchemes_loop done rest :
  foldl (λ cur i,
           match cur !! i with
           | Some u =>
               if negb (Strings.HasPrefix u "http://")
                  && negb (Strings.HasPrefix u "https://")
               then <[i:="https://" +:+ u]> cur
               else cur
           | None => cur
           end)
        ((withScheme <$> done) ++ rest) (seq (length done) (length rest))
  = withScheme <$> (done ++ rest).
Proof.
  revert done. induction rest as [|u rest IH]; intros done.
  - simpl. by rewrite !app_nil_r.
  - cbn [length seq foldl].
    rewrite lookup_app_r by (rewrite length_fmap; lia).
    rewrite length_fmap, Nat.sub_diag. cbn [lookup list_lookup].
    replace (S (length done)) with (length (done ++ [u]))
      by (rewrite length_app; simpl; lia).
    replace (done ++ u :: rest) with ((done ++ [u]) ++ rest)
      by (by rewrite <- app_assoc).
    rewrite <- IH. f_equal.
    rewrite fmap_app, <- app_assoc. cbn [fmap list_fmap app].
    rewrite (withScheme_eq u).
    destruct (negb (Strings.HasPrefix u "http://")
              && negb (Strings.HasPrefix u "https://")); [|done].
    rewrite insert_app_r_alt by (rewrite length_fmap; lia).
    by rewrite length_fmap, Nat.sub_diag.
Qed.

Lemma addSchemes_map urls : addSchemes urls = withScheme <$> urls.
Proof. apply (addSchemes_loop [] urls). Qed.

Example load_sample :
  addSchemes
    (readURLs (Opened [" example.com "; EmptyString; "http://a.example"; "   ";
                       "https://b.example/x"; "example.com"] None)).1
  = ["https://example.com"; "http://a.example"; "https://b.example/x";
     "https://example.com"].
Proof. reflexivity. Qed.

(** C6: the targets are the trimmed lines that are not empty, in the order of
    the file and as often as they occur, each with [https://] put before it
    unless it starts with [http://] or [https://], in which case it is left
    as it is; and trimming a line takes away a run of white space characters
    at its start and one at its end, and what is left neither starts nor ends
    with a white space character. *)
Theorem loader_targets :
  (∀ lines scanErr,
     let urls := (readURLs (Opened lines scanErr)).1 in
     urls = filter (λ url, url ≠ EmptyString) (Strings.TrimSpace <$> lines) ∧
     addSchemes urls = withScheme <$> urls ∧
     length (addSchemes urls) = length urls) ∧
  (∀ u, Strings.HasPrefix u "http://" = true ∨ Strings.HasPrefix u "https://" = true →
        withScheme u = u) ∧
  (∀ u, Strings.HasPrefix u "http://" = false →
        Strings.HasPrefix u "https://" = false →
        withScheme u = "https://" +:+ u) ∧
  (∀ line,
     let l := String.list_ascii_of_string line in
     let t := String.list_ascii_of_string (Strings.TrimSpace line) in
     ∃ pre post,
       l = pre ++ t ++ post ∧ Strings.whiteSpace pre ∧ Strings.whiteSpace post ∧
       (∀ r rest, Strings.isSpaceRune r = true → t ≠ r ++ rest) ∧
       (∀ r rest, Strings.isSpaceRune r = true → t ≠ rest ++ r)).
Proof.
  split_and!.
  - intros lines scanErr urls. split_and!.
    + unfold urls. simpl. by rewrite readURLs_loop.
    + apply addSchemes_map.
    + by rewrite addSchemes_map, length_fmap.
  - intros u [H | H]; unfold withScheme; rewrite H; simpl; [done|].
    by rewrite andb_false_r.
  - intros u H1 H2. unfold withScheme. by rewrite H1, H2.
  - intros line l t.
    destruct (TrimSpace_spec line) as (pre & post & Hl & Hpre & Hpost & Hlead & Htrail).
    fold l t in Hl, Hlead, Htrail.
    exists pre, post. split_and!; try done.
    + intros r rest Hr Ht. rewrite Ht in Hlead.
      by apply (leadingSpace_starts r rest).
    + intros r rest Hr Ht. rewrite Ht in Htrail.
      by apply (trailingSpace_ends r rest).
Qed.

(** ** The scan of the arguments *)

Example scanArgs_path :
  scanArgs ["-workers"; "3"; "--json"; "out.json"; "-file"; "u.txt"]
  = mkArgScan "out.json" ["-workers"; "3"; "-file"; "u.txt"] false.
Proof. reflexivity. Qed.

Example scanArgs_default :
  scanArgs ["--json"; "-workers"; "3"]
  = mkArgScan "results.json" ["-workers"; "3"] false.
Proof. reflexivity. Qed.

Example scanArgs_equals :
  scanArgs ["-workers"; "3"; "--json=a.json"]
  = mkArgScan "a.json" ["-workers"; "3"] false.
Proof. reflexivity. Qed.

Lemma scanFrom_nil args st i : scanFrom args st i [] = st.
Proof. reflexivity. Qed.

Lemma scanFrom_cons args st i a rest :
  scanFrom args st i (a :: rest) = scanFrom args (scanArg args st i a) (S i) rest.
Proof. reflexivity. Qed.

Lemma lookup_next (pre : list string) a rest :
  (pre ++ a :: rest) !! (length pre + 1)%nat = rest !! 0%nat.
Proof.
  rewrite lookup_app_r by lia.
  replace (length pre + 1 - length pre)%nat with 1%nat by lia. done.
Qed.

Lemma jsonOptionSpec_cons json a rest :
  jsonOptionSpec json (a :: rest)
  = if String.eqb a "--json" then
      match rest with
      | next :: rest' =>
          if Strings.HasPrefix next "-"
          then jsonOptionSpec "results.json" rest
          else jsonOptionSpec next rest'
      | [] => ("results.json", [])
      end
    else if Strings.HasPrefix a "--json=" then
      jsonOptionSpec (Strings.TrimPrefix a "--json=") rest
    else ((jsonOptionSpec json rest).1, a :: (jsonOptionSpec json rest).2).
Proof. reflexivity. Qed.

Lemma scanArg_skip args st i a :
  skip st = true → scanArg args st i a = mkArgScan (jsonOutput st) (newArgs st) false.
Proof. unfold scanArg. by intros ->. Qed.

Lemma scanArg_json args st i a :
  skip st = false → String.eqb a "--json" = true →
  scanArg args st i a
  = match args !! (i + 1)%nat with
    | Some next =>
        if negb (Strings.HasPrefix next "-")
        then mkArgScan next (newArgs st) true
        else mkArgScan "results.json" (newArgs st) false
    | None => mkArgScan "results.json" (newArgs st) false
    end.
Proof. unfold scanArg. by intros -> ->. Qed.

Lemma scanArg_other args st i a :
  skip st = false → String.eqb a "--json" = false →
  scanArg args st i a
  = if Strings.HasPrefix a "--json=" then
      mkArgScan (Strings.TrimPrefix a "--json=") (newArgs st) false
    else mkArgScan (jsonOutput st) (newArgs st ++ [a]) false.
Proof. unfold scanArg. by intros -> ->. Qed.

(** The loop from position [length pre] on, in both states of [skip]. *)
Lemma scanFrom_spec rest :
  ∀ pre st,
    (skip st = false →
     scanFrom (pre ++ rest) st (length pre) rest
     = mkArgScan (jsonOptionSpec (jsonOutput st) rest).1
                 (newArgs st ++ (jsonOptionSpec (jsonOutput st) rest).2) false) ∧
    (skip st = true →
     scanFrom (pre ++ rest) st (length pre) rest
     = mkArgScan (jsonOptionSpec (jsonOutput st) (tail rest)).1
                 (newArgs st ++ (jsonOptionSpec (jsonOutput st) (tail rest)).2) false
       ∨ rest = []).
Proof.
  induction rest as [|a rest IH]; intros pre st.
  - split; [|by right]. intros Hs. rewrite scanFrom_nil. cbn [jsonOptionSpec fst snd].
    rewrite app_nil_r. destruct st; simpl in *; by subst.
  - assert (pre ++ a :: rest = (pre ++ [a]) ++ rest) as Hargs
      by (by rewrite <- app_assoc).
    assert (S (length pre) = length (pre ++ [a])) as Hlen
      by (rewrite length_app; simpl; lia).
    split; intros Hs; [|left]; rewrite scanFrom_cons.
    + rewrite jsonOptionSpec_cons.
      destruct (String.eqb a "--json") eqn:Ha.
      * rewrite scanArg_json, lookup_next by done.
        destruct rest as [|next rest']; cbn [lookup list_lookup].
        { by rewrite scanFrom_nil, app_nil_r. }
        rewrite Hargs, Hlen.
        destruct (Strings.HasPrefix next "-") eqn:Hn; cbn [negb].
        -- by destruct (IH (pre ++ [a]) (mkArgScan "results.json" (newArgs st) false))
             as [-> _].
        -- destruct (IH (pre ++ [a]) (mkArgScan next (newArgs st) true))
             as [_ [-> | ?]]; done.
      * rewrite scanArg_other by done. rewrite Hargs, Hlen.
        destruct (Strings.HasPrefix a "--json=") eqn:Hp.
        -- by destruct (IH (pre ++ [a])
                          (mkArgScan (Strings.TrimPrefix a "--json=") (newArgs st) false))
             as [-> _].
        -- destruct (IH (pre ++ [a])
                       (mkArgScan (jsonOutput st) (newArgs st ++ [a]) false))
             as [-> _]; [|done]. cbn [jsonOutput newArgs fst snd].
           by rewrite <- app_assoc.
    + rewrite scanArg_skip by done. rewrite Hargs, Hlen.
      by destruct (IH (pre ++ [a]) (mkArgScan (jsonOutput st) (newArgs st) false))
        as [-> _].
Qed.

Lemma jsonOptionSpec_passedOn json pre rest :
  Forall passedOn pre →
  jsonOptionSpec json (pre ++ rest)
  = ((jsonOptionSpec json rest).1, pre ++ (jsonOptionSpec json rest).2).
Proof.
  induction 1 as [|a pre [Ha1 Ha2] _ IH].
  - rewrite !(left_id_L [] (++)). by destruct (jsonOptionSpec json rest).
  - apply String.eqb_neq in Ha1.
    rewrite <- app_comm_cons, jsonOptionSpec_cons. by rewrite Ha1, Ha2, IH.
Qed.

(** C10: the loop computes what the cases of the option say.  With the
    arguments before and after passed on by the scan: [--json] followed by an
    argument that does not start with [-] takes it as the path and removes
    both; [--json] at the end, or followed by an argument that starts with
    [-], selects [results.json] and removes only itself; [--json=PATH]
    selects [PATH]; every other argument is passed on, in order.  In a list
    with several of them the last one decides the path. *)
Theorem scanArgs_json_option :
  (∀ args,
     scanArgs args
     = mkArgScan (jsonOptionSpec EmptyString args).1
                 (jsonOptionSpec EmptyString args).2 false) ∧
  (∀ pre path post,
     Forall passedOn pre → Forall passedOn post →
     Strings.HasPrefix path "-" = false →
     scanArgs (pre ++ "--json" :: path :: post)
     = mkArgScan path (pre ++ post) false) ∧
  (∀ pre,
     Forall passedOn pre →
     scanArgs (pre ++ ["--json"]) = mkArgScan "results.json" pre false) ∧
  (∀ pre next post,
     Forall passedOn pre → Forall passedOn (next :: post) →
     Strings.HasPrefix next "-" = true →
     scanArgs (pre ++ "--json" :: next :: post)
     = mkArgScan "results.json" (pre ++ next :: post) false) ∧
  (∀ pre path post,
     Forall passedOn pre → Forall passedOn post →
     scanArgs (pre ++ ("--json=" +:+ path) :: post)
     = mkArgScan path (pre ++ post) false) ∧
  (∀ args, Forall passedOn args → scanArgs args = mkArgScan EmptyString args false).
Proof.
  assert (∀ args,
     scanArgs args
     = mkArgScan (jsonOptionSpec EmptyString args).1
                 (jsonOptionSpec EmptyString args).2 false) as Hspec.
  { intros args. unfold scanArgs.
    destruct (scanFrom_spec args [] (mkArgScan EmptyString [] false)) as [H _].
    by apply H. }
  assert (∀ json l, Forall passedOn l → jsonOptionSpec json l = (json, l)) as Hplain.
  { intros json l Hl. rewrite <- (app_nil_r l) at 1.
    rewrite jsonOptionSpec_passedOn by done. cbn [jsonOptionSpec fst snd].
    by rewrite app_nil_r. }
  split_and!; try done.
  - intros pre path post Hpre Hpost Hpath.
    rewrite Hspec, jsonOptionSpec_passedOn, jsonOptionSpec_cons by done.
    rewrite String.eqb_refl, Hpath. by rewrite Hplain.
  - intros pre Hpre.
    rewrite Hspec, jsonOptionSpec_passedOn, jsonOptionSpec_cons by done.
    rewrite String.eqb_refl. cbn [fst snd]. by rewrite app_nil_r.
  - intros pre next post Hpre Hpost Hnext.
    rewrite Hspec, jsonOptionSpec_passedOn, jsonOptionSpec_cons by done.
    rewrite String.eqb_refl, Hnext. by rewrite Hplain.
  - intros pre path post Hpre Hpost.
    rewrite Hspec, jsonOptionSpec_passedOn, jsonOptionSpec_cons by done.
    assert (String.eqb ("--json=" +:+ path) "--json" = false) as ->.
    { apply String.eqb_neq. intros H. by destruct path. }
    rewrite HasPrefix_app, TrimPrefix_app. by rewrite Hplain.
  - intros args Hargs. by rewrite Hspec, Hplain.
Qed.

(** ** The worker pool *)

Section PoolFacts.

Variable net : string → Response → bool.
Variable nworkers : Z.
Variable contains : string.
Variable urls : list string.

Local Abbreviation step := (step net nworkers contains urls).
Local Abbreviation reachable := (reachable net nworkers contains urls).
Local Abbreviation Inv := (Inv net nworkers contains urls).
Local Abbreviation isOutcome := (isOutcome net contains).
Local Abbreviation workerOutcome := (workerOutcome net contains).

Lemma worker_split (ws : list Worker) i w :
  ws !! i = Some w →
  ∃ l1 l2, ws = l1 ++ w :: l2 ∧ ∀ w', <[i:=w']> ws = l1 ++ w' :: l2.
Proof.
  intros Hi. exists (take i ws), (drop (S i) ws). split.
  - by rewrite take_drop_middle.
  - intros w'. apply insert_take_drop. by eapply lookup_lt_Some.
Qed.

Lemma liveCount_app l1 l2 : liveCount (l1 ++ l2) = (liveCount l1 + liveCount l2)%nat.
Proof. unfold liveCount. by rewrite filter_app, length_app. Qed.

Lemma liveCount_nil : liveCount [] = 0%nat.
Proof. done. Qed.

Lemma liveCount_cons w l :
  liveCount (w :: l) = ((if live w then 1 else 0) + liveCount l)%nat.
Proof.
  unfold liveCount. rewrite filter_cons.
  destruct (live w); by case_decide.
Qed.

Lemma liveCount_0 ws : liveCount ws = 0%nat ↔ Forall (λ w, w = WExit) ws.
Proof.
  induction ws as [|w ws IH]; [by split; [constructor|]|].
  rewrite liveCount_cons, Forall_cons, <- IH.
  destruct w; simpl; split; try lia; try (intros [? ?]; done).
  intros ->. by split.
Qed.

Lemma liveCount_pos ws :
  (0 < liveCount ws)%nat → ∃ i w, ws !! i = Some w ∧ live w = true.
Proof.
  induction ws as [|w ws IH]; [unfold liveCount; simpl; lia|].
  rewrite liveCount_cons. destruct (live w) eqn:Hw.
  - intros _. by exists 0%nat, w.
  - intros H. destruct IH as (i & w' & ? & ?); [lia|]. by exists (S i), w'.
Qed.

Lemma inv_init : Inv init.
Proof.
  constructor; simpl.
  all: try done.
  all: try (unfold inflight; simpl; by rewrite !app_nil_r).
  all: try lia.
  by intros ?%elem_of_nil.
Qed.

Ltac inv_fields H :=
  destruct H as [Hperm Hout Hwo Hreq Hwg Hsp Hct Huc Hcl Hrc Hcg Hex Hid Hdn].

Ltac norm_lists :=
  repeat first
    [ rewrite fmap_app | rewrite concat_app | rewrite fmap_cons
    | rewrite liveCount_app | rewrite liveCount_cons
    | rewrite length_app | rewrite Forall_app | rewrite Forall_cons
    | rewrite elem_of_app | rewrite elem_of_cons
    | rewrite Forall_nil | rewrite elem_of_nil | rewrite liveCount_nil ]; simpl.

Ltac norm_lists_in H :=
  repeat first
    [ rewrite fmap_app in H | rewrite concat_app in H | rewrite fmap_cons in H
    | rewrite liveCount_app in H | rewrite liveCount_cons in H
    | rewrite length_app in H | rewrite Forall_app in H | rewrite Forall_cons in H
    | rewrite elem_of_app in H | rewrite elem_of_cons in H
    | rewrite Forall_nil in H | rewrite elem_of_nil in H
    | rewrite liveCount_nil in H ]; simpl in H.

Ltac perm_by H :=
  first [ exact H | etransitivity; [|exact H]; solve_Permutation ].

Lemma isOutcome_checkURL u resp :
  net u resp = true → isOutcome (checkURL u resp contains).
Proof. intros H. exists resp. by rewrite checkURL_URL. Qed.

Ltac inv_auto Hperm Hreq Hout Hwo Hex Hcg Hsp :=
  try done;
  try (unfold inflight; simpl; norm_lists; rewrite ?checkURL_URL; perm_by Hperm);
  try (norm_lists; rewrite ?checkURL_URL, Hreq; norm_lists; solve_Permutation);
  try lia;
  norm_lists; norm_lists_in Hout; norm_lists_in Hwo; norm_lists_in Hex;
  norm_lists_in Hcg; norm_lists_in Hsp;
  try tauto; try lia;
  try (intros Hnil; apply app_eq_nil in Hnil; destruct Hnil; discriminate);
  try (intros Hc; specialize (Hcg Hc); lia);
  clear Hperm Hreq.

Ltac split_exec Ha :=
  repeat match type of Ha with
         | context [match ?x with _ => _ end] => destruct x eqn:?
         end; simplify_eq.

Lemma inv_step s s' : Inv s → step s s' → Inv s'.
Proof.
  intros HI [a Ha]. inv_fields HI.
  destruct s as [pc rs ub uc rb rc g ws cl rq]; simpl in *.
  unfold inflight in Hperm; simpl in Hperm.
  destruct a as [|i resp|]; simpl in Ha.
  - unfold execMain in Ha; simpl in Ha.
    split_exec Ha; simpl in *.
    all: constructor; simpl.
    all: inv_auto Hperm Hreq Hout Hwo Hex Hcg Hsp.
    all: naive_solver.
  - unfold execWorker in Ha; simpl in Ha.
    destruct (ws !! i) as [w|] eqn:Hi; [|done].
    destruct (worker_split _ _ _ Hi) as (l1 & l2 & -> & Hins).
    clear Hi.
    norm_lists_in Hperm. norm_lists_in Hreq.
    split_exec Ha; simpl in *; rewrite Hins; clear Hins.
    all: constructor; simpl.
    all: inv_auto Hperm Hreq Hout Hwo Hex Hcg Hsp.
    all: try (split_and?; auto using isOutcome_checkURL; tauto).
    all: naive_solver.
  - unfold execCloser in Ha; simpl in Ha.
    split_exec Ha; simpl in *.
    all: constructor; simpl.
    all: inv_auto Hperm Hreq Hout Hwo Hex Hcg Hsp.
    all: destruct (pastGo pc); naive_solver.
Qed.

Lemma reachable_inv s : reachable s → Inv s.
Proof. induction 1; eauto using inv_init, inv_step. Qed.

Lemma run_reachable sched s s' :
  reachable s → run net nworkers contains urls sched s = Some s' → reachable s'.
Proof.
  revert s. induction sched as [|a sched IH]; intros s Hs; simpl.
  - by intros [= <-].
  - destruct (exec net nworkers contains urls a s) as [| |s1] eqn:Ha; try done.
    apply IH. eapply reach_step; [done|]. by exists a.
Qed.

(** *** Every step makes the measure smaller *)

Lemma step_measure s s' :
  step s s' → (measure nworkers urls s' < measure nworkers urls s)%nat.
Proof.
  intros [a Ha].
  destruct s as [pc rs ub uc rb rc g ws cl rq].
  destruct a as [|i resp|]; simpl in Ha.
  - unfold execMain in Ha; simpl in Ha.
    split_exec Ha; unfold measure; simpl;
      rewrite ?sum_list_with_app, ?length_app; simpl; lia.
  - unfold execWorker in Ha; simpl in Ha.
    destruct (ws !! i) as [w|] eqn:Hi; [|done].
    destruct (worker_split _ _ _ Hi) as (l1 & l2 & -> & Hins).
    split_exec Ha; unfold measure; simpl; rewrite Hins;
      rewrite ?sum_list_with_app, ?length_app; simpl; lia.
  - unfold execCloser in Ha; simpl in Ha.
    split_exec Ha; unfold measure; simpl; lia.
Qed.

(** *** No operation of a run panics *)

Lemma inv_no_panic s a : Inv s → exec net nworkers contains urls a s ≠ Panics.
Proof.
  intros HI Ha. inv_fields HI.
  destruct s as [pc rs ub uc rb rc g ws cl rq]; simpl in *.
  destruct a as [|i resp|]; simpl in Ha.
  - unfold execMain in Ha; simpl in Ha. split_exec Ha; done.
  - unfold execWorker in Ha; simpl in Ha.
    destruct (ws !! i) as [w|] eqn:Hi; [|done].
    destruct (worker_split _ _ _ Hi) as (l1 & l2 & -> & _).
    norm_lists_in Hcg.
    split_exec Ha; simpl in *.
    + match goal with
      | H : (_ <? _) = true |- _ => apply Z.ltb_lt in H; norm_lists_in H; lia
      end.
    + assert (cl = CDone) as Hc by tauto. specialize (Hcg (or_intror Hc)). lia.
  - unfold execCloser in Ha; simpl in Ha. split_exec Ha.
    assert (CClosing = CDone) by tauto. done.
Qed.

(** *** A run that has not finished can always go on *)

Lemma inflight_length s :
  Inv s →
  (length (restOf urls (mainPc s)) + length (urlBuf s)
   + length (concat (workerURL <$> workers s)) + length (resBuf s)
   + length (results s) = length urls)%nat.
Proof.
  intros HI. apply inv_perm, Permutation_length in HI.
  unfold inflight in HI. rewrite !length_app, !length_fmap in HI. lia.
Qed.

Lemma inv_progress s :
  (∀ u, WBusy u ∈ workers s → ∃ resp, net u resp = true) →
  Inv s → mainPc s ≠ MDone → ∃ s', step s s'.
Proof.
  intros Hnet HI Hpc. pose proof (inflight_length s HI) as Hlen.
  inv_fields HI.
  destruct s as [pc rs ub uc rb rc g ws cl rq]; simpl in *.
  destruct pc as [i|[|u rest]| | | |]; simpl in *; try done.
  - destruct (i <? nworkers) eqn:Hi; eexists; exists AMain;
      unfold exec, execMain; simpl; by rewrite Hi.
  - eexists. by exists AMain.
  - eexists. exists AMain. unfold exec, execMain; simpl. subst uc.
    destruct (Nat.ltb_spec (length ub) (chanCap urls)) as [|Hge]; [done|].
    unfold chanCap in Hge. lia.
  - eexists. exists AMain. unfold exec, execMain; simpl. by subst uc.
  - eexists. by exists AMain.
  - destruct rb as [|r rb]; [|eexists; by exists AMain].
    destruct rc; [eexists; by exists AMain|].
    destruct cl.
    + naive_solver.
    + destruct (Z.eqb_spec g 0) as [Hg|Hg].
      * eexists. exists ACloser. unfold exec, execCloser; simpl.
        by destruct (Z.eqb_spec g 0).
      * destruct (liveCount_pos ws) as (i & w & Hi & Hw); [lia|].
        destruct (worker_split _ _ _ Hi) as (l1 & l2 & Hws & _).
        destruct w; try done.
        -- destruct ub as [|u ub].
           ++ eexists. exists (AWorker i (GetFailed EmptyString)).
              unfold exec, execWorker; simpl. rewrite Hi, Huc.
              destruct (Z.ltb_spec (g - 1) 0); [|done].
              subst g ws. norm_lists_in H. lia.
           ++ eexists. exists (AWorker i (GetFailed EmptyString)).
              unfold exec, execWorker; simpl. by rewrite Hi.
        -- destruct (Hnet url) as [resp Hresp].
           { by eapply list_elem_of_lookup_2. }
           eexists. exists (AWorker i resp).
           unfold exec, execWorker; simpl. by rewrite Hi, Hresp.
        -- eexists. exists (AWorker i (GetFailed EmptyString)).
           unfold exec, execWorker; simpl. rewrite Hi.
           destruct (Nat.ltb_spec 0 (chanCap urls)) as [|Hge]; [done|].
           unfold chanCap in Hge. subst ws.
           norm_lists_in Hlen. lia.
    + eexists. by exists ACloser.
    + naive_solver.
Qed.

(** *** What a finished run has collected *)

Lemma all_exited ws :
  Forall (λ w, w = WExit) ws →
  concat (workerURL <$> ws) = [] ∧ concat (workerDone <$> ws) = [].
Proof.
  induction 1 as [|w ws -> _ [IH1 IH2]]; [done|].
  by rewrite !fmap_cons.
Qed.

Lemma inv_done_exited s :
  Inv s → mainPc s = MDone →
  resBuf s = [] ∧ Forall (λ w, w = WExit) (workers s).
Proof.
  intros HI Hpc. inv_fields HI. destruct (Hdn Hpc) as [Hrb Hclosed].
  split; [done|]. apply liveCount_0, Hcg. right. by apply Hrc.
Qed.

Lemma inv_final_workers s :
  Inv s → mainPc s = MDone → 1 ≤ nworkers →
  URL <$> results s ≡ₚ urls ∧ requested s ≡ₚ urls ∧
  length (results s) = length urls.
Proof.
  intros HI Hpc HW. destruct (inv_done_exited s HI Hpc) as [Hrb Hws].
  destruct (all_exited _ Hws) as [Hu Hd]. inv_fields HI.
  assert (urlBuf s = []) as Hub.
  { apply Hex. rewrite Hpc in Hsp. simpl in Hsp.
    destruct (workers s) as [|w ws]; [simpl in Hsp; lia|].
    apply Forall_cons in Hws as [-> _]. by left. }
  unfold inflight in Hperm.
  rewrite Hpc, Hub, Hu, Hrb in Hperm. simpl in Hperm.
  rewrite Hd, Hrb in Hreq. simpl in Hreq.
  split_and!; [done | by rewrite Hreq |].
  apply Permutation_length in Hperm. by rewrite length_fmap in Hperm.
Qed.

Lemma run_measure sched s s' :
  run net nworkers contains urls sched s = Some s' →
  (length sched + measure nworkers urls s' ≤ measure nworkers urls s)%nat.
Proof.
  revert s. induction sched as [|a sched IH]; intros s; simpl.
  - intros [= <-]. lia.
  - destruct (exec net nworkers contains urls a s) as [| |s1] eqn:Ha; try done.
    intros Hrun. apply IH in Hrun.
    assert (step s s1) as Hstep by (by exists a).
    apply step_measure in Hstep. lia.
Qed.

(** From any state of a run, some schedule leads to the end. *)
Lemma mainPc_done_or_not s : mainPc s = MDone ∨ mainPc s ≠ MDone.
Proof. destruct (mainPc s); (by left) || (by right). Qed.

Lemma inv_completes n s :
  (∀ s u, Inv s → WBusy u ∈ workers s → ∃ resp, net u resp = true) →
  (measure nworkers urls s ≤ n)%nat → Inv s →
  ∃ sched s', run net nworkers contains urls sched s = Some s' ∧ mainPc s' = MDone.
Proof.
  intros Hnet. revert s. induction n as [|n IH]; intros s Hn HI.
  - destruct (mainPc_done_or_not s) as [Hpc|Hpc].
    + by exists [], s.
    + destruct (inv_progress s (λ u, Hnet s u HI) HI Hpc) as [s1 Hstep].
      apply step_measure in Hstep. lia.
  - destruct (mainPc_done_or_not s) as [Hpc|Hpc].
    + by exists [], s.
    + destruct (inv_progress s (λ u, Hnet s u HI) HI Hpc) as [s1 Hstep].
      pose proof (step_measure _ _ Hstep) as Hlt.
      pose proof (inv_step _ _ HI Hstep) as HI1.
      destruct Hstep as [a Ha].
      destruct (IH s1 ltac:(lia) HI1) as (sched & s' & Hrun & Hdone).
      exists (a :: sched), s'. split; [|done]. simpl. by rewrite Ha.
Qed.

Lemma inv_final_no_workers s :
  Inv s → nworkers ≤ 0 → results s = [] ∧ requested s = [].
Proof.
  intros HI HW. inv_fields HI.
  assert (workers s = []) as Hws.
  { apply length_zero_iff_nil. rewrite Hsp. lia. }
  destruct (Hid Hws) as (_ & ? & ?). done.
Qed.

(** *** Capacity, closing and requests *)

Lemma workerURL_length ws i w :
  ws !! i = Some w →
  (length (workerURL w) ≤ length (concat (workerURL <$> ws)))%nat.
Proof.
  intros (l1 & l2 & -> & _)%worker_split.
  rewrite fmap_app, fmap_cons, concat_app, concat_cons, !length_app. lia.
Qed.

Lemma live_not_closed s i w :
  Inv s → workers s !! i = Some w → live w = true → resClosed s = false.
Proof.
  intros HI Hi Hw. inv_fields HI.
  destruct (resClosed s) eqn:Hclosed; [|done].
  assert (closer s = CDone) as Hc by (by apply Hrc).
  specialize (Hcg (or_intror Hc)).
  apply worker_split in Hi as (l1 & l2 & Hws & _).
  rewrite Hws in Hcg. norm_lists_in Hcg. rewrite Hw in Hcg. lia.
Qed.

(** X1: the capacity [len(urls)] of the two channels is enough: whenever
    [main] is about to send a target to [urlChan] and whenever a worker is
    about to send a record to [resultChan], the send goes through at once,
    it neither blocks nor panics. *)
Theorem sends_never_block s :
  reachable s →
  (∀ u rest, mainPc s = MFill (u :: rest) →
     ∃ s', execMain nworkers urls s = Steps s') ∧
  (∀ i res resp, workers s !! i = Some (WSend res) →
     ∃ s', execWorker net contains urls i resp s = Steps s').
Proof.
  intros HI%reachable_inv. pose proof (inflight_length s HI) as Hlen. split.
  - intros u rest Hpc. unfold execMain. rewrite Hpc.
    rewrite (inv_urlClosed _ _ _ _ _ HI), Hpc. simpl.
    rewrite Hpc in Hlen. simpl in Hlen.
    destruct (Nat.ltb_spec (length (urlBuf s)) (chanCap urls)) as [|Hge]; [by eexists|].
    unfold chanCap in Hge. lia.
  - intros i res resp Hi. unfold execWorker. rewrite Hi.
    rewrite (live_not_closed s i _ HI Hi) by done.
    apply workerURL_length in Hi. simpl in Hi.
    destruct (Nat.ltb_spec (length (resBuf s)) (chanCap urls)) as [|Hge]; [by eexists|].
    unfold chanCap in Hge. lia.
Qed.

(** X2: [resultChan] is closed only when every worker has left its loop and
    the counter of the wait group is 0; with at least one worker, [urlChan]
    is then closed and empty and every target has its record in
    [resultChan] or in [results]: closing loses no record. *)
Theorem result_channel_closed_after_workers s :
  reachable s → resClosed s = true →
  Forall (λ w, w = WExit) (workers s) ∧ wg s = 0 ∧ closer s = CDone ∧
  (1 ≤ nworkers →
     urlClosed s = true ∧ urlBuf s = [] ∧
     URL <$> (results s ++ resBuf s) ≡ₚ urls).
Proof.
  intros HI%reachable_inv Hclosed.
  pose proof HI as HI'. inv_fields HI'.
  assert (closer s = CDone) as Hc by (by apply Hrc).
  assert (liveCount (workers s) = 0%nat) as Hlive by (apply Hcg; by right).
  assert (Forall (λ w, w = WExit) (workers s)) as Hex' by (by apply liveCount_0).
  split_and!; try done.
  - rewrite Hwg, Hlive. done.
  - intros HW.
    assert (pastGo (mainPc s) = true) as Hpast.
    { destruct (pastGo (mainPc s)) eqn:Hp; [done|].
      assert (closer s = CNone) by (by apply Hcl). congruence. }
    assert (spawnedAt nworkers (mainPc s) = Z.max 0 nworkers) as Hsp'.
    { destruct (mainPc s); simpl in *; done. }
    assert (WExit ∈ workers s) as Hin.
    { rewrite Hsp' in Hsp. destruct (workers s) as [|w ws]; [simpl in Hsp; lia|].
      apply Forall_cons in Hex' as [-> _]. by left. }
    destruct (Hex Hin) as [Hu Hb]. split_and!; try done.
    destruct (all_exited _ Hex') as [HU _].
    unfold inflight in Hperm. rewrite Hb, HU in Hperm.
    assert (restOf urls (mainPc s) = []) as Hrest.
    { destruct (mainPc s); simpl in *; done. }
    rewrite Hrest in Hperm. simpl in Hperm.
    rewrite fmap_app. rewrite <- Hperm. solve_Permutation.
Qed.

Lemma workerDone_sub ws :
  concat (workerDone <$> ws) ⊆+ concat (workerURL <$> ws).
Proof.
  induction ws as [|w ws IH]; [done|]. rewrite !fmap_cons, !concat_cons.
  apply submseteq_app; [|done]. destruct w; simpl; try done.
  apply submseteq_nil_l.
Qed.

Lemma busyCount_length ws :
  (busyCount ws ≤ length (concat (workerURL <$> ws)))%nat.
Proof.
  unfold busyCount. induction ws as [|w ws IH]; [done|].
  rewrite filter_cons, fmap_cons, concat_cons, length_app.
  destruct w; simpl; try case_decide; simpl; try done; lia.
Qed.

Lemma inv_requested_sub s : Inv s → requested s ⊆+ urls.
Proof.
  intros HI. inv_fields HI.
  rewrite Hreq, <- Hperm. unfold inflight.
  apply submseteq_inserts_l, submseteq_inserts_l.
  apply submseteq_app; [apply workerDone_sub | done].
Qed.

(** X3: at any moment of a run, with any worker count, the requests made so
    far are targets of the list, none more often than it is listed; and the
    calls of [checkURL] under way are never more than the worker count, nor
    more than the targets. *)
Theorem requests_within_the_list s :
  reachable s →
  requested s ⊆+ urls ∧
  (Z.of_nat (busyCount (workers s)) ≤ Z.max 0 nworkers) ∧
  (busyCount (workers s) ≤ length urls)%nat.
Proof.
  intros HI%reachable_inv. pose proof (inflight_length s HI) as Hlen.
  pose proof HI as HI'. inv_fields HI'. split_and!.
  - by apply inv_requested_sub.
  - assert (busyCount (workers s) ≤ length (workers s))%nat
      by apply length_filter.
    lia.
  - pose proof (busyCount_length (workers s)). lia.
Qed.

(** *** One worker keeps the order *)

Ltac flat_lists :=
  repeat first
    [ rewrite fmap_app | rewrite concat_app | rewrite fmap_cons
    | rewrite concat_cons | rewrite app_nil_r | rewrite <- app_assoc
    | rewrite checkURL_URL ]; simpl.

Ltac flat_lists_in H :=
  repeat first
    [ rewrite fmap_app in H | rewrite concat_app in H | rewrite fmap_cons in H
    | rewrite concat_cons in H | rewrite app_nil_r in H
    | rewrite <- app_assoc in H ]; simpl in H.

Lemma order_step s s' :
  nworkers ≤ 1 → Inv s →
  arrival urls s = urls ∧ requested s = requestOrder s →
  step s s' →
  arrival urls s' = urls ∧ requested s' = requestOrder s'.
Proof.
  intros HW HI [Harr Hord] [a Ha]. inv_fields HI.
  destruct s as [pc rs ub uc rb rc g ws cl rq]; simpl in *.
  unfold arrival, requestOrder in *; simpl in *.
  destruct a as [|i resp|]; simpl in Ha.
  - unfold execMain in Ha; simpl in Ha.
    split_exec Ha; simpl in *; flat_lists; flat_lists_in Harr.
    all: split; first [done | congruence].
  - unfold execWorker in Ha; simpl in Ha.
    destruct (ws !! i) as [w|] eqn:Hi; [|done].
    destruct (worker_split _ _ _ Hi) as (l1 & l2 & -> & Hins).
    assert (l1 = [] ∧ l2 = []) as [-> ->].
    { rewrite length_app in Hsp. simpl in Hsp.
      assert (spawnedAt nworkers pc ≤ 1) by lia.
      destruct l1, l2; simpl in *; try done; lia. }
    clear Hi. simpl in *.
    split_exec Ha; simpl in *; rewrite Hins; clear Hins;
      flat_lists; flat_lists_in Harr; rewrite ?checkURL_URL.
    all: split; first [done | congruence].
  - unfold execCloser in Ha; simpl in Ha.
    split_exec Ha; simpl in *.
    all: split; first [done | congruence].
Qed.

Lemma reachable_order s :
  nworkers ≤ 1 → reachable s →
  arrival urls s = urls ∧ requested s = requestOrder s.
Proof.
  intros HW. induction 1 as [|s s' Hs IH Hstep].
  - by unfold arrival, requestOrder.
  - eapply order_step; eauto using reachable_inv.
Qed.

(** X4: with a worker count of 1 the pool keeps the order of the list: when
    the run has ended, the collected records are those of the targets in the
    order of the list, and the requests were made in that order. *)
Theorem one_worker_keeps_order s :
  nworkers = 1 → reachable s → mainPc s = MDone →
  URL <$> results s = urls ∧ requested s = urls ∧
  (∀ i u, urls !! i = Some u → ∃ r, results s !! i = Some r ∧ URL r = u).
Proof.
  intros HW Hs Hpc.
  destruct (reachable_order s ltac:(lia) Hs) as [Harr Hord].
  apply reachable_inv in Hs.
  destruct (inv_done_exited s Hs Hpc) as [Hrb Hws].
  destruct (all_exited _ Hws) as [HU HD].
  destruct (inv_final_workers s Hs Hpc ltac:(lia)) as (Hperm & _ & Hlen).
  unfold arrival in Harr. unfold requestOrder in Hord.
  rewrite Hrb, HU, Hpc in Harr. rewrite Hrb, HD in Hord. simpl in *.
  rewrite !app_nil_r in Hord.
  assert (URL <$> results s = urls) as Heq.
  { apply (f_equal length) in Harr as Hl.
    rewrite !length_app, length_fmap in Hl.
    assert (urlBuf s = []) as Hub by (apply length_zero_iff_nil; lia).
    by rewrite Hub, !app_nil_r in Harr. }
  split_and!; [done | congruence |].
  intros i u Hi. rewrite <- Heq, list_lookup_fmap in Hi.
  destruct (results s !! i) as [r|]; simplify_eq/=. by exists r.
Qed.

(** X5: when the run has ended, both channels are closed, [resultChan] is
    empty, every worker has left its loop, the counter of the wait group is
    0 and the closing goroutine is done.  With at least one worker [urlChan]
    is empty too; with a worker count of 0 or less it still holds every
    target, in the order of the list: none was taken. *)
Theorem pool_ends_clean s :
  reachable s → mainPc s = MDone →
  urlClosed s = true ∧ resClosed s = true ∧ resBuf s = [] ∧
  Forall (λ w, w = WExit) (workers s) ∧
  Z.of_nat (length (workers s)) = Z.max 0 nworkers ∧
  wg s = 0 ∧ closer s = CDone ∧
  (1 ≤ nworkers → urlBuf s = []) ∧
  (nworkers ≤ 0 → urlBuf s = urls).
Proof.
  intros Hs Hpc. pose proof (reachable_inv s Hs) as HI.
  destruct (inv_done_exited s HI Hpc) as [Hrb Hws].
  pose proof HI as HI'. inv_fields HI'.
  destruct (Hdn Hpc) as [_ Hclosed].
  split_and!; try done.
  - by rewrite Huc, Hpc.
  - rewrite Hsp, Hpc. simpl. lia.
  - apply liveCount_0 in Hws. by rewrite Hwg, Hws.
  - by apply Hrc.
  - intros HW. apply Hex. rewrite Hpc in Hsp. simpl in Hsp.
    destruct (workers s) as [|w ws]; [simpl in Hsp; lia|].
    apply Forall_cons in Hws as [-> _]. by left.
  - intros HW. destruct (reachable_order s ltac:(lia) Hs) as [Harr _].
    destruct (inv_final_no_workers s HI HW) as [Hrs _].
    destruct (all_exited _ Hws) as [HU _].
    unfold arrival in Harr. rewrite Hrs, Hrb, HU, Hpc in Harr. simpl in Harr.
    by rewrite app_nil_r in Harr.
Qed.

End PoolFacts.

(** ** The order of the report *)

Lemma notAfter_leb a b : notAfter a b ↔ String.leb (URL a) (URL b) = true.
Proof.
  unfold notAfter, less, String.ltb, String.leb.
  rewrite (String.compare_antisym (URL a) (URL b)).
  destruct (String.compare (URL b) (URL a)); simpl; split; congruence.
Qed.

Lemma notAfter_le a b : notAfter a b ↔ String.le (URL a) (URL b).
Proof. rewrite notAfter_leb. unfold String.le. by rewrite Is_true_true. Qed.

#[local] Instance notAfter_trans : Transitive notAfter.
Proof.
  intros a b c. rewrite !notAfter_le. apply (transitivity (R:=String.le)).
Qed.

#[local] Instance notAfter_total : Total notAfter.
Proof.
  intros a b. rewrite !notAfter_le. apply (total String.le).
Qed.

Lemma notAfter_same_URL a b : notAfter a b → notAfter b a → URL a = URL b.
Proof.
  rewrite !notAfter_le. apply (anti_symm String.le).
Qed.

Lemma sampleSort_sorts : sortsSlice sampleSort.
Proof.
  intros l. split.
  - apply merge_sort_Permutation.
  - apply (Sorted_merge_sort notAfter).
Qed.

(** Two lists with the same targets, in which the target decides the record,
    hold the same records. *)
Lemma same_targets_same_records (l1 l2 : list Result) :
  (∀ a b, a ∈ l1 → b ∈ l2 → URL a = URL b → a = b) →
  URL <$> l1 ≡ₚ URL <$> l2 → l1 ≡ₚ l2.
Proof.
  revert l2. induction l1 as [|a l1 IH]; intros l2 Hdet Hperm.
  - apply Permutation_nil_l in Hperm. symmetry in Hperm.
    by apply fmap_nil_inv in Hperm as ->.
  - assert (URL a ∈ URL <$> l2) as Hin.
    { rewrite <- Hperm. rewrite fmap_cons. by left. }
    apply list_elem_of_fmap in Hin as (b & Hab & Hb).
    assert (a = b) as <-.
    { apply Hdet; [by left | done | done]. }
    apply list_elem_of_split in Hb as (k1 & k2 & ->).
    rewrite <- Permutation_middle. constructor.
    apply IH.
    + intros x y Hx Hy. apply Hdet; [by right|].
      rewrite elem_of_app, elem_of_cons in *. tauto.
    + rewrite fmap_app, !fmap_cons, <- Permutation_middle in Hperm.
      apply Permutation_cons_inv in Hperm. by rewrite fmap_app.
Qed.

(** A sorted list is non-decreasing at any two positions. *)
Lemma sortedByURL_lookup l i j a b :
  sortedByURL l → (i ≤ j)%nat → l !! i = Some a → l !! j = Some b →
  String.leb (URL a) (URL b) = true.
Proof.
  intros Hs%(Sorted_StronglySorted notAfter).
  revert i j a b.
  induction Hs as [|x l Hl IH Hx]; intros i j a b Hij Hi Hj; [done|].
  destruct i as [|i], j as [|j]; simpl in *; simplify_eq; try lia.
  - apply notAfter_leb, notAfter_le. reflexivity.
  - apply notAfter_leb. rewrite Forall_forall in Hx. apply Hx.
    by eapply list_elem_of_lookup_2.
  - apply (IH i j); [lia|done|done].
Qed.

Lemma sorted_unique_records (l1 l2 : list Result) :
  (∀ a b, a ∈ l1 → b ∈ l2 → URL a = URL b → a = b) →
  sortedByURL l1 → sortedByURL l2 → l1 ≡ₚ l2 → l1 = l2.
Proof.
  intros Hdet H1 H2 Hp.
  apply (Sorted_unique_strong notAfter); try done.
  intros x1 x2 Hx1 Hx2 H12 H21. apply Hdet; try done.
  by apply notAfter_same_URL.
Qed.

(** ** The sample runs *)

Lemma sampleNet_total u : ∃ resp, sampleNet u resp = true.
Proof.
  exists (sampleAnswer u). simpl. by rewrite String.eqb_refl.
Qed.

Lemma sampleNet_functional u r1 r2 :
  sampleNet u r1 = true → sampleNet u r2 = true → r1 = r2.
Proof.
  destruct r1 as [|st1 ms1 [b1|]], r2 as [|st2 ms2 [b2|]]; simpl; try done.
  rewrite !andb_true_iff, !Z.eqb_eq, !String.eqb_eq. naive_solver.
Qed.

Lemma finalTwo_reachable : reachable sampleNet 2 EmptyString sampleURLs finalTwo.
Proof.
  apply (run_reachable _ _ _ _ scheduleTwo init); [constructor | by vm_compute].
Qed.

Lemma finalOne_reachable : reachable sampleNet 1 EmptyString sampleURLs finalOne.
Proof.
  apply (run_reachable _ _ _ _ scheduleOne init); [constructor | by vm_compute].
Qed.

Lemma finalNone_reachable : reachable sampleNet 0 EmptyString sampleURLs finalNone.
Proof.
  apply (run_reachable _ _ _ _ scheduleNone init); [constructor | by vm_compute].
Qed.

(** ** The pool delivers every target once *)

(** C1, for a worker count of at least 1: whatever the order of the steps, a
    run of the pool never panics, can go on until [main] has left its
    collecting loop, and takes no more steps than the measure of the initial
    state; when it has ended, the targets of the collected records are the
    input targets, each as often as it is in the input (so there are as many
    records as targets), each got one request, and every record is what
    [checkURL] returns for its target. *)
Theorem pool_collects_each_target_once net nworkers contains urls :
  1 ≤ nworkers → urls ≠ [] → (∀ u, ∃ resp, net u resp = true) →
  (∀ sched s, run net nworkers contains urls sched init = Some s →
     (length sched ≤ measure nworkers urls init)%nat) ∧
  ∀ s, reachable net nworkers contains urls s →
    (∀ a, exec net nworkers contains urls a s ≠ Panics) ∧
    (mainPc s ≠ MDone → ∃ s', step net nworkers contains urls s s') ∧
    (∃ sched s', run net nworkers contains urls sched s = Some s' ∧
                 mainPc s' = MDone) ∧
    (mainPc s = MDone →
       URL <$> results s ≡ₚ urls ∧ length (results s) = length urls ∧
       requested s ≡ₚ urls ∧ Forall (isOutcome net contains) (results s)).
Proof.
  intros HW _ Hnet. split.
  - intros sched s Hrun. apply run_measure in Hrun. lia.
  - intros s Hs%reachable_inv. split_and!.
    + intros a. by apply inv_no_panic.
    + apply inv_progress; [|done]. intros u _. apply Hnet.
    + apply (inv_completes _ _ _ _ (measure nworkers urls s)); [|lia|done].
      intros s0 u _ _. apply Hnet.
    + intros Hpc.
      destruct (inv_final_workers _ _ _ _ s Hs Hpc HW) as (H1 & H2 & H3).
      split_and!; try done.
      apply inv_outcomes in Hs. by apply Forall_app in Hs as [_ ?].
Qed.

Lemma pool_collects_each_target_once_witness :
  URL <$> results finalTwo ≡ₚ sampleURLs ∧
  length (results finalTwo) = length sampleURLs ∧
  requested finalTwo ≡ₚ sampleURLs.
Proof.
  destruct (pool_collects_each_target_once sampleNet 2 EmptyString sampleURLs)
    as [_ H]; [lia | done | apply sampleNet_total |].
  destruct (H finalTwo finalTwo_reachable) as (_ & _ & _ & Hfin).
  destruct (Hfin eq_refl) as (H1 & H2 & H3 & _). by split_and!.
Defined.

(** C1 as it is stated fails for a worker count of 0: the run ends and nothing
    has been collected. *)
Lemma pool_zero_workers_drops_targets :
  ∃ s, reachable sampleNet 0 EmptyString sampleURLs s ∧ mainPc s = MDone ∧
       results s = [] ∧ length (results s) ≠ length sampleURLs.
Proof.
  exists finalNone. split_and!; [apply finalNone_reachable | done | done | done].
Qed.

(** C9: with a worker count of 0 or less, whatever the order of the steps, a
    run never panics, can go on until [main] has left its collecting loop and
    takes no more steps than the measure of the initial state; no request is
    made, nothing is collected, and the table has its two heading lines and no
    row. *)
Theorem pool_without_workers sortSlice net nworkers contains urls show :
  nworkers ≤ 0 → urls ≠ [] → sortsSlice sortSlice →
  (∀ sched s, run net nworkers contains urls sched init = Some s →
     (length sched ≤ measure nworkers urls init)%nat) ∧
  ∀ s, reachable net nworkers contains urls s →
    (∀ a, exec net nworkers contains urls a s ≠ Panics) ∧
    (mainPc s ≠ MDone → ∃ s', step net nworkers contains urls s s') ∧
    (∃ sched s', run net nworkers contains urls sched s = Some s' ∧
                 mainPc s' = MDone) ∧
    results s = [] ∧ requested s = [] ∧
    printTable (sortSlice (results s)) show = tableHeader.
Proof.
  intros HW _ Hsort. split.
  - intros sched s Hrun. apply run_measure in Hrun. lia.
  - assert (∀ s u, Inv net nworkers contains urls s → WBusy u ∈ workers s →
                   ∃ resp, net u resp = true) as Hidle.
    { intros s u Hs Hu.
      assert (workers s = []) as Hws.
      { apply length_zero_iff_nil. rewrite (inv_spawned _ _ _ _ _ Hs).
        pose proof (inv_counter _ _ _ _ _ Hs). lia. }
      rewrite Hws in Hu. by apply elem_of_nil in Hu. }
    intros s Hs%reachable_inv.
    destruct (inv_final_no_workers _ _ _ _ s Hs HW) as [Hrs Hrq].
    split_and!; try done.
    + intros a. by apply inv_no_panic.
    + apply inv_progress; [|done]. intros u. by apply Hidle.
    + by apply (inv_completes _ _ _ _ (measure nworkers urls s)).
    + rewrite Hrs. destruct (Hsort []) as [Hp _].
      apply Permutation_nil_r in Hp. rewrite Hp.
      unfold printTable. by rewrite app_nil_r.
Qed.

Lemma pool_without_workers_witness :
  results finalNone = [] ∧ requested finalNone = [] ∧
  printTable (sampleSort (results finalNone)) false = tableHeader.
Proof.
  destruct (pool_without_workers sampleSort sampleNet 0 EmptyString sampleURLs false)
    as [_ H]; [lia | done | apply sampleSort_sorts |].
  destruct (H finalNone finalNone_reachable) as (_ & _ & _ & H1 & H2 & H3).
  by split_and!.
Defined.

Lemma withoutLatency_URL r : URL (withoutLatency r) = URL r.
Proof. done. Qed.

Lemma withoutLatency_sameAnswer u r1 r2 contains :
  sameAnswer r1 r2 →
  withoutLatency (checkURL u r1 contains) = withoutLatency (checkURL u r2 contains).
Proof.
  destruct r1 as [e1 | st1 ms1 b1], r2 as [e2 | st2 ms2 b2]; simpl; try done.
  - by intros ->.
  - intros [-> ->]. destruct b2 as [body | err]; [|done].
    by destruct (negb (String.eqb contains EmptyString)).
Qed.

Lemma sortedByURL_withoutLatency l :
  sortedByURL l → sortedByURL (withoutLatency <$> l).
Proof. apply Sorted_fmap. by intros x y. Qed.

(** The records of two finished runs over the same targets are the same up
    to their order and their latencies. *)
Lemma finished_runs_agree net w1 w2 contains urls s1 s2 :
  (∀ u r1 r2, net u r1 = true → net u r2 = true → sameAnswer r1 r2) →
  1 ≤ w1 → 1 ≤ w2 →
  Inv net w1 contains urls s1 → mainPc s1 = MDone →
  Inv net w2 contains urls s2 → mainPc s2 = MDone →
  (∀ a b, a ∈ results s1 → b ∈ results s2 → URL a = URL b →
          withoutLatency a = withoutLatency b) ∧
  URL <$> results s1 ≡ₚ URL <$> results s2.
Proof.
  intros Hsame H1 H2 Hs1 Hpc1 Hs2 Hpc2. split.
  - intros a b Ha Hb Hab.
    pose proof (inv_outcomes _ _ _ _ _ Hs1) as Ho1.
    pose proof (inv_outcomes _ _ _ _ _ Hs2) as Ho2.
    apply Forall_app in Ho1 as [_ Ho1]. apply Forall_app in Ho2 as [_ Ho2].
    rewrite Forall_forall in Ho1, Ho2.
    destruct (Ho1 a Ha) as (ra & Hra & Ea). destruct (Ho2 b Hb) as (rb & Hrb & Eb).
    rewrite Ea, Eb, Hab. apply withoutLatency_sameAnswer.
    apply (Hsame (URL b)); [by rewrite <- Hab | done].
  - destruct (inv_final_workers _ _ _ _ s1 Hs1 Hpc1 H1) as (-> & _).
    by destruct (inv_final_workers _ _ _ _ s2 Hs2 Hpc2 H2) as (-> & _).
Qed.

(** Without that, [sort.Slice] does not decide the order: a stable sort such
    as [sampleSort] keeps two records of one target in the order of arrival. *)
Example equal_targets_keep_arrival_order :
  sampleSort [twiceUp; twiceDown] = [twiceUp; twiceDown] ∧
  sampleSort [twiceDown; twiceUp] = [twiceDown; twiceUp].
Proof. by vm_compute. Qed.

(** C5, for two worker counts that are both at least 1 (or both 0 or less)
    and two runs that have one and the same record for each target string,
    up to its latency.  The sorted records of a finished run are
    non-decreasing by target at any two positions.  Two finished runs over
    the same targets, whatever the two worker counts, the order of the steps
    and the network of each run are, end with the same sorted records up to
    their latencies; and when the records of a target have the same latency
    too, with the same sorted records and the same table.  The records of two
    runs agree in this way when the network answers each target string in one
    way ([finished_runs_agree]); they cannot when a target is listed twice
    and its two requests are answered differently. *)
Theorem sorted_report_is_deterministic sortSlice net1 net2 w1 w2 contains urls s1 s2 show :
  sortsSlice sortSlice →
  reachable net1 w1 contains urls s1 → mainPc s1 = MDone →
  reachable net2 w2 contains urls s2 → mainPc s2 = MDone →
  let out1 := sortSlice (results s1) in
  let out2 := sortSlice (results s2) in
  (∀ i j a b, (i ≤ j)%nat → out1 !! i = Some a → out1 !! j = Some b →
     String.leb (URL a) (URL b) = true) ∧
  (∀ i j a b, (i ≤ j)%nat → out2 !! i = Some a → out2 !! j = Some b →
     String.leb (URL a) (URL b) = true) ∧
  ((1 ≤ w1 ∧ 1 ≤ w2) ∨ (w1 ≤ 0 ∧ w2 ≤ 0) →
   (∀ a b, a ∈ results s1 → b ∈ results s2 → URL a = URL b →
           withoutLatency a = withoutLatency b) →
   withoutLatency <$> out1 = withoutLatency <$> out2 ∧
   ((∀ a b, a ∈ results s1 → b ∈ results s2 → URL a = URL b → a = b) →
    out1 = out2 ∧ printTable out1 show = printTable out2 show)).
Proof.
  intros Hsort Hs1%reachable_inv Hpc1 Hs2%reachable_inv Hpc2 out1 out2.
  destruct (Hsort (results s1)) as [Hp1 Hsorted1].
  destruct (Hsort (results s2)) as [Hp2 Hsorted2].
  split_and!.
  - intros i j a b. by apply sortedByURL_lookup.
  - intros i j a b. by apply sortedByURL_lookup.
  - intros HW Hdet.
    assert (URL <$> results s1 ≡ₚ URL <$> results s2) as Hurls.
    { destruct HW as [[H1 H2] | [H1 H2]].
      - destruct (inv_final_workers _ _ _ _ s1 Hs1 Hpc1 H1) as (-> & _).
        by destruct (inv_final_workers _ _ _ _ s2 Hs2 Hpc2 H2) as (-> & _).
      - destruct (inv_final_no_workers _ _ _ _ s1 Hs1 H1) as [-> _].
        by destruct (inv_final_no_workers _ _ _ _ s2 Hs2 H2) as [-> _]. }
    split.
    + assert (∀ a b, a ∈ withoutLatency <$> out1 → b ∈ withoutLatency <$> out2 →
                     URL a = URL b → a = b) as Hdet'.
      { intros a b (a0 & -> & Ha)%list_elem_of_fmap (b0 & -> & Hb)%list_elem_of_fmap.
        rewrite !withoutLatency_URL. apply Hdet.
        - by rewrite <- Hp1.
        - by rewrite <- Hp2. }
      apply sorted_unique_records; try done.
      * by apply sortedByURL_withoutLatency.
      * by apply sortedByURL_withoutLatency.
      * apply same_targets_same_records; [done|].
        rewrite <- !list_fmap_compose.
        rewrite (list_fmap_ext (URL ∘ withoutLatency) URL out1) by done.
        rewrite (list_fmap_ext (URL ∘ withoutLatency) URL out2) by done.
        unfold out1, out2. by rewrite Hp1, Hp2.
    + intros Hdet1.
      assert (out1 = out2) as Heq.
      { apply sorted_unique_records; try done.
        - intros a b Ha Hb. apply Hdet1.
          + by rewrite <- Hp1.
          + by rewrite <- Hp2.
        - unfold out1, out2. rewrite Hp1, Hp2.
          by apply same_targets_same_records. }
      split; [done | by rewrite Heq].
Qed.

Lemma sameAnswer_refl r : sameAnswer r r.
Proof. by destruct r. Qed.

Lemma sampleNet_sameAnswer u r1 r2 :
  sampleNet u r1 = true → sampleNet u r2 = true → sameAnswer r1 r2.
Proof.
  intros Hr1 Hr2. rewrite (sampleNet_functional u r1 r2 Hr1 Hr2).
  apply sameAnswer_refl.
Qed.

Lemma sorted_report_is_deterministic_witness :
  withoutLatency <$> sampleSort (results finalOne)
  = withoutLatency <$> sampleSort (results finalTwo) ∧
  sampleSort (results finalOne) = sampleSort (results finalTwo) ∧
  printTable (sampleSort (results finalOne)) false
  = printTable (sampleSort (results finalTwo)) false.
Proof.
  destruct (sorted_report_is_deterministic sampleSort sampleNet sampleNet 1 2
              EmptyString sampleURLs finalOne finalTwo false sampleSort_sorts
              finalOne_reachable eq_refl finalTwo_reachable eq_refl)
    as (_ & _ & H).
  destruct H as [H1 H2].
  - left. lia.
  - apply (finished_runs_agree sampleNet 1 2 EmptyString sampleURLs);
      [apply sampleNet_sameAnswer | lia | lia | | done | | done].
    + apply reachable_inv, finalOne_reachable.
    + apply reachable_inv, finalTwo_reachable.
  - destruct H2 as [H3 H4]; [|by split_and!].
    intros a b Ha Hb. simpl in Ha, Hb.
    rewrite !elem_of_cons, elem_of_nil in Ha, Hb.
    destruct Ha as [->|[->|[]]], Hb as [->|[->|[]]]; intros HU; done.
Defined.

(** ** A target listed twice *)

Lemma finalTwiceOne_reachable :
  reachable twiceNet 1 EmptyString twiceURLs finalTwiceOne.
Proof.
  apply (run_reachable _ _ _ _ scheduleTwiceOne init); [constructor | by vm_compute].
Qed.

Lemma finalTwiceTwo_reachable :
  reachable twiceNet 2 EmptyString twiceURLs finalTwiceTwo.
Proof.
  apply (run_reachable _ _ _ _ scheduleTwiceTwo init); [constructor | by vm_compute].
Qed.

(** C5 as it is stated fails in two ways.  For a target that is listed twice
    and answers 200 to one request and 503 to the other, two runs in which
    the first entry of the list gets the 200 and the second one the 503 end
    with the same records, but in the two orders of arrival, and a sort with
    the promise of [sort.Slice] may leave them so: the sorted records and the
    tables differ, also up to the latencies.  And with the worker counts 0
    and 1 the sorted records differ for any list: none against one for each
    target. *)
Lemma sorted_report_depends_on_arrival :
  sortsSlice sampleSort ∧
  (∃ s1 s2,
     reachable twiceNet 1 EmptyString twiceURLs s1 ∧ mainPc s1 = MDone ∧
     reachable twiceNet 2 EmptyString twiceURLs s2 ∧ mainPc s2 = MDone ∧
     requested s1 = requested s2 ∧ results s1 ≡ₚ results s2 ∧
     sortedByURL (sampleSort (results s1)) ∧ sortedByURL (sampleSort (results s2)) ∧
     sampleSort (results s1) ≠ sampleSort (results s2) ∧
     withoutLatency <$> sampleSort (results s1)
       ≠ withoutLatency <$> sampleSort (results s2) ∧
     printTable (sampleSort (results s1)) false
       ≠ printTable (sampleSort (results s2)) false) ∧
  (∃ s1 s2,
     reachable sampleNet 0 EmptyString sampleURLs s1 ∧ mainPc s1 = MDone ∧
     reachable sampleNet 1 EmptyString sampleURLs s2 ∧ mainPc s2 = MDone ∧
     sampleSort (results s1) = [] ∧
     sampleSort (results s1) ≠ sampleSort (results s2)).
Proof.
  split_and!.
  - apply sampleSort_sorts.
  - exists finalTwiceOne, finalTwiceTwo.
    split_and!; try done.
    + apply finalTwiceOne_reachable.
    + apply finalTwiceTwo_reachable.
    + apply perm_swap.
    + apply sampleSort_sorts.
    + apply sampleSort_sorts.
  - exists finalNone, finalOne.
    split_and!; try done.
    + apply finalNone_reachable.
    + apply finalOne_reachable.
Qed.

(** ** [main] *)

Example main_sample_report :
  mainRuns sampleSort sampleNet sampleConfig
    (Opened [" b.example"; EmptyString; "a.example "] None)
    (mkReport 0 EmptyString
       (tableHeader ++
        [ "https://a.example" +:+ tab +:+ "200" +:+ tab +:+ "true" +:+ tab +:+ "5"
            +:+ tab +:+ "17" +:+ tab +:+ "-" +:+ tab +:+ newline;
          "https://b.example" +:+ tab +:+ "200" +:+ tab +:+ "true" +:+ tab +:+ "5"
            +:+ tab +:+ "17" +:+ tab +:+ "-" +:+ tab +:+ newline ])
       ["https://a.example"; "https://b.example"] None).
Proof.
  apply (main_reports sampleSort sampleNet sampleConfig _
           ["b.example"; "a.example"] finalTwo); try done.
  apply finalTwo_reachable.
Qed.

Example table_row_of_failed_read :
  tableRow (checkURL "https://example.com"
              (GetHeader 200 12 (BodyFailed "unexpected EOF")) EmptyString)
  = "https://example.com" +:+ tab +:+ "200" +:+ tab +:+ "false" +:+ tab +:+ "12"
      +:+ tab +:+ "0" +:+ tab +:+ "-" +:+ tab +:+ "unexpected EOF" +:+ newline.
Proof. reflexivity. Qed.

Lemma readErrorText_not_empty_input err : readErrorText err ≠ emptyInputText.
Proof.
  unfold readErrorText, emptyInputText. cbv [String.append]. congruence.
Qed.

(** C8: when the file cannot be read or holds no target, the program ends
    with exit status 1, having made no request and written no table and no
    JSON file; what it writes to the error stream tells the two apart: the
    text for an unreadable file is never the text for an empty one.  (The exit
    status is 1 in both cases.) *)
Theorem main_fails_fast_on_bad_input sortSlice net cfg src :
  (readURLs src).2 ≠ None ∨ (readURLs src).1 = [] →
  (∃ report, mainRuns sortSlice net cfg src report) ∧
  (∀ report, mainRuns sortSlice net cfg src report →
     exitCode report = 1 ∧ exitCode report ≠ 0 ∧
     gets report = [] ∧ tableLines report = [] ∧ jsonSaved report = None ∧
     stderr report = match (readURLs src).2 with
                     | Some err => readErrorText err
                     | None => emptyInputText
                     end) ∧
  (∀ err, readErrorText err ≠ emptyInputText).
Proof.
  intros Hbad. split_and!.
  - destruct (readURLs src) as [urls [err|]] eqn:Hr; simpl in Hbad.
    + eexists. by eapply main_read_error.
    + destruct Hbad as [? | ->]; [done|]. eexists. by eapply main_empty_input.
  - intros report Hrun. destruct Hrun as [urls err Hr | Hr | urls s Hr Hne _ _].
    + rewrite Hr. by simpl.
    + rewrite Hr. by simpl.
    + rewrite Hr in Hbad. simpl in Hbad. by destruct Hbad.
  - apply readErrorText_not_empty_input.
Qed.

Lemma main_fails_fast_on_bad_input_witness :
  (∃ report, mainRuns sampleSort sampleNet sampleConfig blankFile report) ∧
  (∀ report, mainRuns sampleSort sampleNet sampleConfig blankFile report →
     exitCode report = 1 ∧ gets report = [] ∧ stderr report = emptyInputText) ∧
  (∀ report, mainRuns sampleSort sampleNet sampleConfig missingFile report →
     exitCode report = 1 ∧ gets report = [] ∧
     stderr report = readErrorText "open urls.txt: no such file or directory").
Proof.
  destruct (main_fails_fast_on_bad_input sampleSort sampleNet sampleConfig blankFile)
    as (Hex & Hall & _); [right; reflexivity|].
  destruct (main_fails_fast_on_bad_input sampleSort sampleNet sampleConfig missingFile)
    as (_ & Hmiss & _); [left; discriminate|].
  split_and!; [done | |].
  - intros report Hr. destruct (Hall report Hr) as (? & _ & ? & _ & _ & ?). done.
  - intros report Hr. destruct (Hmiss report Hr) as (? & _ & ? & _ & _ & ?). done.
Defined.

(** ** More on the pool: the sample runs *)

Lemma midFill_reachable : reachable sampleNet 2 EmptyString sampleURLs midFill.
Proof.
  apply (run_reachable _ _ _ _ (take 3 scheduleTwo) init); [constructor | by vm_compute].
Qed.

Lemma midSend_reachable : reachable sampleNet 2 EmptyString sampleURLs midSend.
Proof.
  apply (run_reachable _ _ _ _ (take 8 scheduleTwo) init); [constructor | by vm_compute].
Qed.

Example midFill_state : mainPc midFill = MFill sampleURLs ∧ urlBuf midFill = [].
Proof. by vm_compute. Qed.

Example midSend_state :
  workers midSend
  = [WBusy "https://b.example"; WSend (sampleResult "https://a.example")].
Proof. by vm_compute. Qed.

Lemma sends_never_block_witness :
  (∃ s', execMain 2 sampleURLs midFill = Steps s') ∧
  (∃ s', execWorker sampleNet EmptyString sampleURLs 1
           (sampleAnswer "https://a.example") midSend = Steps s').
Proof.
  split.
  - destruct (sends_never_block sampleNet 2 EmptyString sampleURLs midFill
                midFill_reachable) as [H _].
    apply (H "https://b.example" ["https://a.example"]). by vm_compute.
  - destruct (sends_never_block sampleNet 2 EmptyString sampleURLs midSend
                midSend_reachable) as [_ H].
    apply (H 1%nat (sampleResult "https://a.example")). by vm_compute.
Defined.

Lemma result_channel_closed_after_workers_witness :
  Forall (λ w, w = WExit) (workers finalTwo) ∧ wg finalTwo = 0 ∧
  URL <$> (results finalTwo ++ resBuf finalTwo) ≡ₚ sampleURLs.
Proof.
  destruct (result_channel_closed_after_workers sampleNet 2 EmptyString sampleURLs
              finalTwo finalTwo_reachable eq_refl) as (H1 & H2 & _ & H3).
  destruct H3 as (_ & _ & H3); [lia|]. by split_and!.
Defined.

Lemma requests_within_the_list_witness :
  requested midSend ⊆+ sampleURLs ∧
  (busyCount (workers midSend) ≤ length sampleURLs)%nat.
Proof.
  destruct (requests_within_the_list sampleNet 2 EmptyString sampleURLs midSend
              midSend_reachable) as (H1 & _ & H2).
  by split.
Defined.

Lemma one_worker_keeps_order_witness :
  URL <$> results finalOne = sampleURLs ∧ requested finalOne = sampleURLs.
Proof.
  destruct (one_worker_keeps_order sampleNet 1 EmptyString sampleURLs finalOne
              eq_refl finalOne_reachable eq_refl) as (H1 & H2 & _).
  by split.
Defined.

Lemma pool_ends_clean_witness :
  urlBuf finalTwo = [] ∧ urlBuf finalNone = sampleURLs ∧
  Forall (λ w, w = WExit) (workers finalTwo).
Proof.
  destruct (pool_ends_clean sampleNet 2 EmptyString sampleURLs finalTwo
              finalTwo_reachable eq_refl) as (_ & _ & _ & H1 & _ & _ & _ & H2 & _).
  destruct (pool_ends_clean sampleNet 0 EmptyString sampleURLs finalNone
              finalNone_reachable eq_refl) as (_ & _ & _ & _ & _ & _ & _ & _ & H3).
  split_and!; [apply H2; lia | apply H3; lia | done].
Defined.

(** ** More on the scan of the arguments *)

Lemma scanArgs_eq_spec args :
  scanArgs args
  = mkArgScan (jsonOptionSpec EmptyString args).1
              (jsonOptionSpec EmptyString args).2 false.
Proof.
  unfold scanArgs.
  destruct (scanFrom_spec args [] (mkArgScan EmptyString [] false)) as [H _].
  by apply H.
Qed.

Lemma jsonOptionSpec_passes n :
  ∀ args json, (length args ≤ n)%nat →
    (jsonOptionSpec json args).2 `sublist_of` args ∧
    Forall passedOn (jsonOptionSpec json args).2.
Proof.
  induction n as [|n IH]; intros [|a rest] json Hlen; simpl in Hlen;
    try lia; try (by split; constructor).
  rewrite jsonOptionSpec_cons.
  destruct (String.eqb a "--json") eqn:Ha.
  - destruct rest as [|next rest']; [by split; repeat constructor|].
    destruct (Strings.HasPrefix next "-").
    + destruct (IH (next :: rest') "results.json" ltac:(lia)) as [H1 H2].
      split; [by apply sublist_cons | done].
    + simpl in Hlen. destruct (IH rest' next ltac:(lia)) as [H1 H2].
      split; [by do 2 apply sublist_cons | done].
  - destruct (Strings.HasPrefix a "--json=") eqn:Hp.
    + destruct (IH rest (Strings.TrimPrefix a "--json=") ltac:(lia)) as [H1 H2].
      split; [by apply sublist_cons | done].
    + destruct (IH rest json ltac:(lia)) as [H1 H2]. cbn [fst snd].
      split; [by apply sublist_skip|]. constructor; [|done].
      split; [|done]. by apply String.eqb_neq.
Qed.

(** X6: what the scan hands to [flag.Parse] is the command line with
    arguments taken out, in the same order and with nothing added; no
    argument [--json] or [--json=...] is left in it, so that scanning it
    again finds no path and changes nothing. *)
Theorem scan_passes_only_other_arguments args :
  newArgs (scanArgs args) `sublist_of` args ∧
  Forall passedOn (newArgs (scanArgs args)) ∧
  (length (newArgs (scanArgs args)) ≤ length args)%nat ∧
  scanArgs (newArgs (scanArgs args))
  = mkArgScan EmptyString (newArgs (scanArgs args)) false.
Proof.
  rewrite scanArgs_eq_spec. cbn [newArgs].
  destruct (jsonOptionSpec_passes (length args) args EmptyString ltac:(lia))
    as [Hsub Hpass].
  split_and!; try done.
  - by apply sublist_length.
  - rewrite scanArgs_eq_spec.
    rewrite <- (app_nil_r (jsonOptionSpec EmptyString args).2) at 1 2.
    rewrite jsonOptionSpec_passedOn by done. cbn [jsonOptionSpec fst snd].
    by rewrite app_nil_r.
Qed.

(** An argument that starts with [-] is never taken as the path of a
    [--json] before it: the scan looks at it. *)
Lemma jsonOptionSpec_reaches n :
  ∀ pre x rest json, (length pre ≤ n)%nat → Strings.HasPrefix x "-" = true →
    ∃ json', (jsonOptionSpec json (pre ++ x :: rest)).1
             = (jsonOptionSpec json' (x :: rest)).1.
Proof.
  induction n as [|n IH]; intros [|a pre] x rest json Hlen Hx; simpl in Hlen;
    try lia; try (by exists json).
  rewrite <- app_comm_cons, jsonOptionSpec_cons.
  destruct (String.eqb a "--json") eqn:Ha.
  - destruct pre as [|next pre']; cbn [app].
    + rewrite Hx. by exists "results.json".
    + destruct (Strings.HasPrefix next "-").
      * apply (IH (next :: pre')); [simpl in *; lia | done].
      * apply IH; [simpl in *; lia | done].
  - destruct (Strings.HasPrefix a "--json=").
    + apply IH; [lia | done].
    + cbn [fst]. apply IH; [lia | done].
Qed.

Lemma jsonOptionSpec_plain json l :
  Forall passedOn l → jsonOptionSpec json l = (json, l).
Proof.
  intros Hl. rewrite <- (app_nil_r l) at 1.
  rewrite jsonOptionSpec_passedOn by done. cbn [jsonOptionSpec fst snd].
  by rewrite app_nil_r.
Qed.

(** X7: the last [--json] argument decides the path, whatever stands before
    it: after any arguments, [--json=PATH] followed only by arguments that
    are passed on selects [PATH]; [--json] followed by a path and such
    arguments selects the path; [--json] at the end, or followed by a passed
    on argument that starts with [-], selects [results.json]. *)
Theorem last_json_argument_decides :
  (∀ pre path post,
     Forall passedOn post →
     jsonOutput (scanArgs (pre ++ ("--json=" +:+ path) :: post)) = path) ∧
  (∀ pre path post,
     Forall passedOn post → Strings.HasPrefix path "-" = false →
     jsonOutput (scanArgs (pre ++ "--json" :: path :: post)) = path) ∧
  (∀ pre, jsonOutput (scanArgs (pre ++ ["--json"])) = "results.json") ∧
  (∀ pre next post,
     Forall passedOn (next :: post) → Strings.HasPrefix next "-" = true →
     jsonOutput (scanArgs (pre ++ "--json" :: next :: post)) = "results.json").
Proof.
  split_and!.
  - intros pre path post Hpost. rewrite scanArgs_eq_spec. cbn [jsonOutput].
    destruct (jsonOptionSpec_reaches (length pre) pre ("--json=" +:+ path) post
                EmptyString ltac:(lia) eq_refl) as [json' ->].
    rewrite jsonOptionSpec_cons.
    assert (String.eqb ("--json=" +:+ path) "--json" = false) as ->.
    { apply String.eqb_neq. intros H. by destruct path. }
    rewrite HasPrefix_app, TrimPrefix_app. by rewrite jsonOptionSpec_plain.
  - intros pre path post Hpost Hpath. rewrite scanArgs_eq_spec. cbn [jsonOutput].
    destruct (jsonOptionSpec_reaches (length pre) pre "--json" (path :: post)
                EmptyString ltac:(lia) eq_refl) as [json' ->].
    rewrite jsonOptionSpec_cons, String.eqb_refl, Hpath.
    by rewrite jsonOptionSpec_plain.
  - intros pre. rewrite scanArgs_eq_spec. cbn [jsonOutput].
    destruct (jsonOptionSpec_reaches (length pre) pre "--json" []
                EmptyString ltac:(lia) eq_refl) as [json' ->].
    by rewrite jsonOptionSpec_cons, String.eqb_refl.
  - intros pre next post Hpost Hnext. rewrite scanArgs_eq_spec. cbn [jsonOutput].
    destruct (jsonOptionSpec_reaches (length pre) pre "--json" (next :: post)
                EmptyString ltac:(lia) eq_refl) as [json' ->].
    rewrite jsonOptionSpec_cons, String.eqb_refl, Hnext.
    by rewrite jsonOptionSpec_plain.
Qed.

Example last_json_argument_sample :
  scanArgs ["--json"; "a.json"; "-workers"; "--json"; "3"; "--json=b.json"; "x"]
  = mkArgScan "b.json" ["-workers"; "x"] false.
Proof. reflexivity. Qed.

(** ** More on the input loader *)

Lemma trimLoop_none next fuel l :
  next l = None → Strings.trimLoop next fuel l = l.
Proof. intros H. destruct fuel; simpl; [done|]. by rewrite H. Qed.

Lemma TrimSpace_idempotent s :
  Strings.TrimSpace (Strings.TrimSpace s) = Strings.TrimSpace s.
Proof.
  destruct (TrimSpace_spec s) as (pre & post & _ & _ & _ & Hlead & Htrail).
  unfold Strings.TrimSpace at 1.
  unfold Strings.trimLeft, Strings.trimRight.
  rewrite (trimLoop_none _ _ _ Hlead), (trimLoop_none _ _ _ Htrail).
  by rewrite rev_involutive, String.string_of_list_ascii_of_string.
Qed.

Lemma readURLs_trimmed lines :
  Forall trimmed (filter (λ url, url ≠ EmptyString) (Strings.TrimSpace <$> lines)).
Proof.
  apply Forall_forall. intros u [Hu Hin]%list_elem_of_filter.
  apply list_elem_of_fmap in Hin as (line & -> & _).
  split; [done | apply TrimSpace_idempotent].
Qed.

Lemma trimmed_kept l :
  Forall trimmed l →
  filter (λ url, url ≠ EmptyString) (Strings.TrimSpace <$> l) = l.
Proof.
  induction 1 as [|u l [Hu Ht] _ IH]; [done|].
  rewrite fmap_cons, filter_cons, Ht, decide_True by done. by rewrite IH.
Qed.

(** X8: every string that [readURLs] returns is non-empty and is left
    unchanged by trimming (no white space at its ends); there are no more of
    them than lines; a file that cannot be opened gives none, with the error.
    Reading a file whose lines are the strings returned gives them back: the
    loader changes nothing in a list it has produced. *)
Theorem readURLs_returns_trimmed_lines :
  (∀ src, Forall trimmed (readURLs src).1) ∧
  (∀ lines scanErr,
     (length (readURLs (Opened lines scanErr)).1 ≤ length lines)%nat ∧
     (readURLs (Opened lines scanErr)).2 = scanErr) ∧
  (∀ err, readURLs (OpenFails err) = ([], Some err)) ∧
  (∀ src scanErr,
     readURLs (Opened (readURLs src).1 scanErr) = ((readURLs src).1, scanErr)) ∧
  (∀ lines scanErr,
     Forall trimmed lines → readURLs (Opened lines scanErr) = (lines, scanErr)).
Proof.
  assert (∀ lines scanErr,
            readURLs (Opened lines scanErr)
            = (filter (λ url, url ≠ EmptyString) (Strings.TrimSpace <$> lines),
               scanErr)) as Hread.
  { intros lines scanErr. simpl. by rewrite readURLs_loop. }
  assert (∀ src, Forall trimmed (readURLs src).1) as Htr.
  { intros [err | lines scanErr]; [by constructor|].
    rewrite Hread. apply readURLs_trimmed. }
  split_and!; try done.
  - intros lines scanErr. rewrite Hread. cbn [fst snd]. split; [|done].
    etransitivity; [apply length_filter|]. by rewrite length_fmap.
  - intros src scanErr. rewrite Hread. by rewrite trimmed_kept.
  - intros lines scanErr Hl. rewrite Hread. by rewrite trimmed_kept.
Qed.

Lemma withScheme_hasScheme u : hasScheme (withScheme u).
Proof.
  unfold withScheme, hasScheme.
  destruct (Strings.HasPrefix u "http://") eqn:H1; cbn [negb andb]; [by left|].
  destruct (Strings.HasPrefix u "https://") eqn:H2; cbn [negb andb]; [by right|].
  right. apply HasPrefix_app.
Qed.

Lemma withScheme_fixed t : hasScheme t → withScheme t = t.
Proof.
  unfold withScheme. intros [H | H]; rewrite H; cbn [negb andb]; [done|].
  by rewrite andb_false_r.
Qed.

(** X9: after the prefix loop of [main] every target starts with [http://] or
    [https://], so none is empty, and ends with the line it comes from; the
    loop leaves a list of such targets as it is, so running it twice is
    running it once. *)
Theorem addSchemes_gives_schemes urls :
  Forall hasScheme (addSchemes urls) ∧
  Forall (λ t, t ≠ EmptyString) (addSchemes urls) ∧
  (∀ i t, addSchemes urls !! i = Some t →
     ∃ u, urls !! i = Some u ∧ (t = u ∨ t = "https://" +:+ u)) ∧
  addSchemes (addSchemes urls) = addSchemes urls ∧
  (Forall hasScheme urls → addSchemes urls = urls).
Proof.
  rewrite !addSchemes_map.
  assert (Forall hasScheme (withScheme <$> urls)) as Hs.
  { apply Forall_fmap, Forall_forall. intros u _. apply withScheme_hasScheme. }
  assert (∀ l, Forall hasScheme l → withScheme <$> l = l) as Hfix.
  { induction 1 as [|t l Ht _ IH]; [done|].
    by rewrite fmap_cons, IH, withScheme_fixed. }
  split_and!; try done.
  - eapply Forall_impl; [exact Hs|]. intros t [H | H] ->; discriminate.
  - intros i t Hi. rewrite list_lookup_fmap in Hi.
    destruct (urls !! i) as [u|]; simplify_eq/=. exists u. split; [done|].
    unfold withScheme. destruct (_ && _); auto.
  - by apply Hfix.
  - apply Hfix.
Qed.

(** ** More on the checker and the table *)

Lemma length_append (a b : string) :
  String.length (a +:+ b) = (String.length a + String.length b)%nat.
Proof. induction a as [|c a IH]; [done|]. rewrite app_cons. simpl. by rewrite IH. Qed.

(** X10: the size of a record is never negative, and it is positive only
    when the body was read.  A match flag that says [true] comes with a
    non-empty substring, a body at least as long as the substring, no error
    text and the status code of the header. *)
Theorem checkURL_sizes url resp contains :
  let r := checkURL url resp contains in
  0 ≤ SizeBytes r ∧
  (0 < SizeBytes r → ∃ body, body_of resp = Some body ∧
                             SizeBytes r = Z.of_nat (String.length body)) ∧
  (Contains r = Some true →
     contains ≠ EmptyString ∧
     Z.of_nat (String.length contains) ≤ SizeBytes r ∧ 0 < SizeBytes r ∧
     Error r = EmptyString ∧
     ∃ ms body, resp = GetHeader (StatusCode r) ms (BodyBytes body)).
Proof.
  destruct resp as [err | status ms [body | err]]; simpl; try (split_and!; done || lia).
  destruct (negb (String.eqb contains EmptyString)) eqn:Hc; simpl.
  - apply nonempty_eqb in Hc. split_and!; [lia | by eauto |].
    intros [= Hfound]. apply Contains_spec in Hfound as (pre & post & ->).
    rewrite !length_append.
    assert (0 < String.length contains)%nat by (destruct contains; simpl; [done | lia]).
    split_and!; try done; try lia. by eauto.
  - split_and!; [lia | by eauto | done].
Qed.

(** X11: when a failed read of the body has an error text, the OK column of
    a checked target says [true] exactly when the header came with a status
    in [200,300) and the body was read, and [false] otherwise: the table does
    not show the stale [OK] of a record with an error. *)
Theorem table_ok_cell url resp contains :
  (∀ st ms, resp ≠ GetHeader st ms (BodyFailed EmptyString)) →
  let r := checkURL url resp contains in
  (okCell r = "true" ∨ okCell r = "false") ∧
  (okCell r = "true" ↔
     ∃ st ms body, resp = GetHeader st ms (BodyBytes body) ∧ 200 ≤ st < 300).
Proof.
  intros Herr. destruct resp as [err | status ms [body | err]]; simpl.
  - unfold okCell. simpl. destruct (negb _); simpl; split; auto.
    all: split; [done | by intros (? & ? & ? & ? & ?)].
  - assert (okCell (if negb (String.eqb contains EmptyString)
                    then mkResult url status ((200 <=? status) && (status <? 300)) ms
                           (Z.of_nat (String.length body))
                           (Some (Strings.Contains body contains)) EmptyString
                    else mkResult url status ((200 <=? status) && (status <? 300)) ms
                           (Z.of_nat (String.length body)) None EmptyString)
            = fmtBool ((200 <=? status) && (status <? 300))) as ->.
    { by destruct (negb _). }
    destruct (Z.leb_spec 200 status), (Z.ltb_spec status 300); simpl.
    all: split; [auto|]. all: split; try done.
    all: try (intros _; exists status, ms, body; split; [done | lia]).
    all: intros (? & ? & ? & [= <- _ _] & ?); lia.
  - unfold okCell. simpl.
    assert (negb (String.eqb err EmptyString) = true) as ->.
    { apply nonempty_eqb. intros ->. by apply (Herr status ms). }
    split; [auto|]. split; [done | by intros (? & ? & ? & ? & ?)].
Qed.

Lemma table_ok_cell_witness :
  okCell (checkURL "https://example.com"
            (GetHeader 200 12 (BodyFailed "unexpected EOF")) EmptyString) = "false".
Proof.
  destruct (table_ok_cell "https://example.com"
              (GetHeader 200 12 (BodyFailed "unexpected EOF")) EmptyString)
    as [[H | H] _]; [done | discriminate H | exact H].
Defined.

Lemma fmtInt_not_dash n : fmtInt n ≠ "-".
Proof.
  unfold fmtInt. destruct (Z.to_int n) as [d | d]; destruct d; discriminate.
Qed.

Lemma fmtInt_inj n m : fmtInt n = fmtInt m → n = m.
Proof.
  assert (∀ k, NilZero.int_of_string (fmtInt k) = Some (Z.to_int k)) as Hparse.
  { intros k. unfold fmtInt. apply NilZero.isi.
    - destruct k; simpl; try discriminate.
      intros [= H]. by apply Unsigned.to_uint_nonnil in H.
    - destruct k; simpl; try discriminate.
      intros [= H]. by apply Unsigned.to_uint_nonnil in H. }
  intros H. pose proof (Hparse n) as Hn. rewrite H, Hparse in Hn.
  injection Hn as Hn. rewrite <- (DecimalZ.of_to n), <- (DecimalZ.of_to m).
  by rewrite Hn.
Qed.

(** X12: the placeholders of the table are unambiguous.  The status column
    shows [-] exactly for the status code 0 and otherwise the decimal digits
    of the code, so two rows with the same status column have the same status
    code; the match column shows [-] exactly when the match flag is absent,
    and otherwise tells [true] from [false]. *)
Theorem table_placeholders :
  (∀ r, statusCell r = "-" ↔ StatusCode r = 0) ∧
  (∀ r1 r2, statusCell r1 = statusCell r2 → StatusCode r1 = StatusCode r2) ∧
  (∀ r, containsCell r = "-" ↔ Contains r = None) ∧
  (∀ r1 r2, containsCell r1 = containsCell r2 → Contains r1 = Contains r2).
Proof.
  split_and!.
  - intros r. unfold statusCell. destruct (Z.eqb_spec (StatusCode r) 0) as [->|Hne].
    + done.
    + split; [|done]. intros H. by apply fmtInt_not_dash in H.
  - intros r1 r2. unfold statusCell.
    destruct (Z.eqb_spec (StatusCode r1) 0) as [H1|H1],
             (Z.eqb_spec (StatusCode r2) 0) as [H2|H2]; intros H.
    + congruence.
    + symmetry in H. by apply fmtInt_not_dash in H.
    + by apply fmtInt_not_dash in H.
    + by apply fmtInt_inj.
  - intros r. unfold containsCell. destruct (Contains r) as [[|]|]; by split.
  - intros r1 r2. unfold containsCell.
    destruct (Contains r1) as [[|]|], (Contains r2) as [[|]|]; by intros.
Qed.

(** ** More on [main] *)

Lemma mainRuns_exit sortSlice net cfg src report :
  mainRuns sortSlice net cfg src report →
  (exitCode report = 1 ∧ ((readURLs src).2 ≠ None ∨ (readURLs src).1 = [])) ∨
  (exitCode report = 0 ∧ (readURLs src).2 = None ∧ (readURLs src).1 ≠ [] ∧
   take 2 (tableLines report) = tableHeader).
Proof.
  intros [urls err Hr | Hr | urls s Hr Hne _ _]; rewrite Hr; simpl.
  - left. split; [done|]. by left.
  - left. split; [done|]. by right.
  - by right.
Qed.

Lemma readURLs_some_target src :
  (readURLs src).2 = None ∧ (readURLs src).1 ≠ [] ↔
  ∃ lines, src = Opened lines None ∧
    Exists (λ line, Strings.TrimSpace line ≠ EmptyString) lines.
Proof.
  destruct src as [err | lines scanErr]; simpl.
  - split; [by intros [? _] | by intros (? & ? & _)].
  - rewrite readURLs_loop. simpl.
    assert (filter (λ url, url ≠ EmptyString) (Strings.TrimSpace <$> lines) ≠ [] ↔
            Exists (λ line, Strings.TrimSpace line ≠ EmptyString) lines) as Hex.
    { induction lines as [|line lines IH]; simpl.
      - split; [done | by intros ?%Exists_nil].
      - rewrite filter_cons, Exists_cons. case_decide.
        + split; [by left | done].
        + rewrite IH. split; [by right | by intros [?|?]]. }
    split.
    + intros [-> Hne]. exists lines. by rewrite <- Hex.
    + intros (lines' & [= -> ->] & Hl). by rewrite Hex.
Qed.

(** X13: once [flag.Parse] has returned, the exit status of the program is 0
    or 1, and it is 0 exactly when the file opens, is scanned to its end
    without an error, and has a line that is not only white space.  How the
    targets answer has no part in it: a request that fails is a row of the
    table, and with status 0 the table has been written, its two heading
    lines first.  (A flag that does not parse and [-h] end the program inside
    [flag.Parse], before the file is opened; they are no runs of
    [mainRuns].) *)
Theorem main_exit_status sortSlice net cfg src report :
  mainRuns sortSlice net cfg src report →
  (exitCode report = 0 ∨ exitCode report = 1) ∧
  (exitCode report = 0 ↔
     ∃ lines, src = Opened lines None ∧
       Exists (λ line, Strings.TrimSpace line ≠ EmptyString) lines) ∧
  (exitCode report = 0 → take 2 (tableLines report) = tableHeader).
Proof.
  intros Hrun. rewrite <- readURLs_some_target.
  destruct (mainRuns_exit _ _ _ _ _ Hrun)
    as [(He & Hbad) | (He & Herr & Hne & Ht)]; rewrite He.
  - split_and!; try done; [by right | ].
    split; [done|]. intros [H1 H2]. by destruct Hbad.
  - split_and!; try done. by left.
Qed.

(** The run of the sample file, whose three lines give two targets. *)
Lemma sampleReport_runs :
  mainRuns sampleSort sampleNet sampleConfig sampleFile sampleReport.
Proof.
  apply (main_reports sampleSort sampleNet sampleConfig _
           ["b.example"; "a.example"] finalTwo); try done.
  apply finalTwo_reachable.
Qed.

Lemma main_exit_status_witness :
  exitCode sampleReport = 0 ∧ take 2 (tableLines sampleReport) = tableHeader.
Proof.
  destruct (main_exit_status sampleSort sampleNet sampleConfig sampleFile
              sampleReport sampleReport_runs) as (_ & _ & H).
  split; [reflexivity | by apply H].
Defined.

(** X14: when the file is read, holds a target, and the worker count is at
    least 1, the table has its two heading lines and one row for each line of
    the file that is not blank; the rows are those of records sorted by
    target, one for each trimmed line with its scheme, each what [checkURL]
    returns for its target; each target got one request; and the records
    handed to [saveJSON], when a path is set, are the records of the rows. *)
Theorem main_reports_every_line sortSlice net cfg lines report :
  sortsSlice sortSlice → 1 ≤ cfgWorkers cfg →
  mainRuns sortSlice net cfg (Opened lines None) report →
  exitCode report = 0 →
  let targets :=
    withScheme <$> filter (λ url, url ≠ EmptyString) (Strings.TrimSpace <$> lines) in
  ∃ sorted,
    tableLines report = tableHeader ++ (tableRow <$> sorted) ∧
    length (tableLines report) = (2 + length targets)%nat ∧
    sortedByURL sorted ∧ URL <$> sorted ≡ₚ targets ∧
    Forall (isOutcome net (cfgContains cfg)) sorted ∧
    gets report ≡ₚ targets ∧
    jsonSaved report = (if negb (String.eqb (cfgJSON cfg) EmptyString)
                        then Some (cfgJSON cfg, sorted) else None).
Proof.
  intros Hsort HW Hrun Hexit targets.
  destruct Hrun as [urls err Hr | Hr | urls s Hr Hne Hs Hpc]; try done.
  simpl in Hr. rewrite readURLs_loop in Hr. simpl in Hr.
  injection Hr as <-. rewrite addSchemes_map in Hs. fold targets in Hs.
  apply reachable_inv in Hs.
  destruct (inv_final_workers _ _ _ _ s Hs Hpc HW) as (Hperm & Hreq & Hlen).
  destruct (Hsort (results s)) as [Hp Hsorted].
  exists (sortSlice (results s)). cbn [tableLines gets jsonSaved].
  subst sorted. split_and!; try done.
  - unfold printTable. rewrite length_app, length_fmap, Hp. simpl.
    by rewrite Hlen.
  - by rewrite Hp.
  - rewrite Hp. apply inv_outcomes in Hs. by apply Forall_app in Hs as [_ ?].
Qed.

Lemma main_reports_every_line_witness :
  ∃ sorted,
    tableLines sampleReport = tableHeader ++ (tableRow <$> sorted) ∧
    length (tableLines sampleReport) = 4%nat ∧
    gets sampleReport ≡ₚ ["https://b.example"; "https://a.example"].
Proof.
  destruct (main_reports_every_line sampleSort sampleNet sampleConfig
              [" b.example"; EmptyString; "a.example "] sampleReport
              sampleSort_sorts ltac:(done) sampleReport_runs eq_refl)
    as (sorted & H1 & H2 & _ & _ & _ & H3 & _).
  exists sorted. by split_and!.
Defined.

(** X15: when every request gets an answer, the program has a run that ends
    with a report, whatever the file holds and whatever the worker count is:
    bad input ends it before the pool, and the pool comes to its end also
    with no worker. *)
Theorem main_always_reports sortSlice net cfg src :
  (∀ u, ∃ resp, net u resp = true) →
  ∃ report, mainRuns sortSlice net cfg src report.
Proof.
  intros Hnet. destruct (readURLs src) as [urls [err|]] eqn:Hr.
  - eexists. by eapply main_read_error.
  - destruct urls as [|u urls'].
    + eexists. by apply main_empty_input.
    + set (targets := addSchemes (u :: urls')).
      destruct (inv_completes net (cfgWorkers cfg) (cfgContains cfg) targets
                  (measure (cfgWorkers cfg) targets init) init)
        as (sched & s & Hrun & Hdone).
      * intros s0 u0 _ _. apply Hnet.
      * lia.
      * apply inv_init.
      * eexists. eapply (main_reports _ _ _ _ (u :: urls') s); try done.
        eapply run_reachable; [constructor | exact Hrun].
Qed.

Lemma main_always_reports_witness :
  (∃ report, mainRuns sampleSort sampleNet sampleConfig missingFile report) ∧
  (∃ report, mainRuns sampleSort sampleNet sampleConfig
               (Opened ["a.example"; "b.example"; "a.example"] None) report).
Proof.
  split.
  - apply (main_always_reports sampleSort sampleNet sampleConfig missingFile).
    apply sampleNet_total.
  - apply (main_always_reports sampleSort sampleNet sampleConfig
             (Opened ["a.example"; "b.example"; "a.example"] None)).
    apply sampleNet_total.
Defined.

(** X16: whatever the worker count, every request of the program is for a
    target of the file with its scheme, none more often than its line is in
    the file: each request starts with [http://] or [https://], and there
    are no more requests than lines. *)
Theorem main_requests_are_targets sortSlice net cfg src report :
  mainRuns sortSlice net cfg src report →
  gets report ⊆+ addSchemes (readURLs src).1 ∧
  Forall hasScheme (gets report) ∧
  (∀ lines scanErr, src = Opened lines scanErr →
     (length (gets report) ≤ length lines)%nat).
Proof.
  intros Hrun.
  assert (gets report ⊆+ addSchemes (readURLs src).1) as Hsub.
  { destruct Hrun as [urls err Hr | Hr | urls s Hr Hne Hs Hpc]; simpl.
    - apply submseteq_nil_l.
    - apply submseteq_nil_l.
    - rewrite Hr. simpl. apply reachable_inv in Hs.
      by apply inv_requested_sub in Hs. }
  split_and!; [done | |].
  - apply Forall_forall. intros t Ht.
    eapply elem_of_submseteq in Ht; [|exact Hsub].
    rewrite addSchemes_map in Ht.
    apply list_elem_of_fmap in Ht as (u & -> & _). apply withScheme_hasScheme.
  - intros lines scanErr ->. apply submseteq_length in Hsub.
    rewrite addSchemes_map, length_fmap in Hsub.
    simpl in Hsub. rewrite readURLs_loop in Hsub. simpl in Hsub.
    etransitivity; [exact Hsub|].
    etransitivity; [apply length_filter|]. by rewrite length_fmap.
Qed.

Lemma main_requests_are_targets_witness :
  Forall hasScheme (gets sampleReport) ∧ (length (gets sampleReport) ≤ 3)%nat.
Proof.
  destruct (main_requests_are_targets sampleSort sampleNet sampleConfig sampleFile
              sampleReport sampleReport_runs) as (_ & H1 & H2).
  split; [done|]. exact (H2 _ None eq_refl).
Defined.
